(** * The validation dispatcher of [src/js/validator.js]

    A shallow embedding of [runValidation], [scheduleValidation] and
    [store._validator], with the JavaScript objects they share kept in an
    explicit store, followed by the properties of the debounced,
    request-coalescing dispatch.

    What belongs to the caller or to the host is kept abstract:
    - a callback and a custom validator function are known by their
      identity, and calling one is recorded in the trace of the state; they
      are taken to return normally;
    - [store.utils.ajax] is recorded in the same way, with the options it
      was given; its two handlers, [success] and [error], are the ones of
      the source, run when the host delivers a response;
    - [store.getApplicationUsername] is a function of the store of objects
      and the product, and the pre-validation step is known by its effect
      on the store of objects;
    - [setTimeout] and [clearTimeout] are the host's table of pending
      timers, over a clock counted in milliseconds;
    - the calls of [store.log.debug] are left out: what is logged is no
      part of the state. *)

From stdpp Require Import base gmap list strings pretty sorting.
From Stdlib Require Import ZArith.

Set Warnings "-register-all".

(** ** Values *)

(** Products and [additionalData] objects live in the store and are passed
    around by reference. *)
Definition loc := positive.

(** What [JSON.parse] can hand to the success handler.  Numbers are the
    integral ones; a fractional number behaves here like any non-zero
    integer (truthy, passed through untouched). *)
Inductive json :=
| JNull
| JBool (b : bool)
| JNumber (n : Z)
| JString (s : string)
| JArray (items : list json)
| JObject (props : list (string * json)).

(** The values that flow through the module: [undefined], plain data,
    a function (known by its identity only) or a reference to a product. *)
Inductive value :=
| VUndefined
| VData (j : json)
| VFunction (f : nat)
| VProduct (l : loc).

Arguments VProduct l%_positive.

Definition VTrue : value := VData (JBool true).
Definition VFalse : value := VData (JBool false).
Definition VNullV : value := VData JNull.
Definition VStr (s : string) : value := VData (JString s).

(** ToBoolean. *)
Definition json_truthy (j : json) : bool :=
  match j with
  | JNull => false
  | JBool b => b
  | JNumber n => negb (n =? 0)%Z
  | JString s => negb (String.eqb s "")
  | JArray _ | JObject _ => true
  end.

Definition truthy (v : value) : bool :=
  match v with
  | VUndefined => false
  | VData j => json_truthy j
  | VFunction _ | VProduct _ => true
  end.

(** [v === true] *)
Definition is_true (v : value) : bool :=
  match v with
  | VData (JBool true) => true
  | _ => false
  end.

(** Abrupt completion: the exception that unwinds the running handler. *)
Inductive exn :=
| TypeError (msg : string).

Inductive completion (A : Type) :=
| Normal (a : A)
| Throw (e : exn).
Arguments Normal {A} a.
Arguments Throw {A} e.

#[global] Instance completion_bind : MBind completion := λ A B k c,
  match c with
  | Normal a => k a
  | Throw e => Throw e
  end.

Fixpoint assoc {A} (k : string) (props : list (string * A)) : option A :=
  match props with
  | [] => None
  | (k', a) :: props => if decide (k = k') then Some a else assoc k props
  end.

(** [data.k] on a parsed response, for the two names the success handler
    reads, [ok] and [data]: neither is a built-in property of an array, a
    string, a number or a boolean, so those give [undefined]; reading a
    property of [null] throws. *)
Definition field (data : json) (k : string) : completion value :=
  match data with
  | JNull => Throw (TypeError ("Cannot read property '" +:+ k +:+ "' of null"))
  | JObject props =>
      Normal (match assoc k props with Some j => VData j | None => VUndefined end)
  | _ => Normal VUndefined
  end.

(** ** The store of shared objects *)

(** A product: the core reads [id] and [additionalData] only; the other
    properties ([price], [transaction], ...) are carried along in
    [fields].  [additionalData] is [None] for [null] or [undefined]. *)
Record Product := {
  id : string;
  additionalData : option loc;
  fields : list (string * value)
}.

Record heap := {
  products : gmap loc Product;
  objects : gmap loc (gmap string value)
}.

Definition no_product : Product :=
  {| id := ""; additionalData := None; fields := [] |}.

Definition product_at (h : heap) (p : loc) : Product :=
  default no_product (products h !! p).

Definition object_at (h : heap) (a : loc) : gmap string value :=
  default ∅ (objects h !! a).

(** [o.k], [undefined] when the object has no such key. *)
Definition get (o : gmap string value) (k : string) : value :=
  default VUndefined (o !! k).

Definition set_product (p : loc) (x : Product) (h : heap) : heap :=
  {| products := <[p := x]> (products h); objects := objects h |}.

Definition set_object (a : loc) (o : gmap string value) (h : heap) : heap :=
  {| products := products h; objects := <[a := o]> (objects h) |}.

(** [{}]: a new object, at a location nothing refers to yet. *)
Definition new_object (h : heap) : loc := fresh (dom (objects h)).

(** ** Requests, batches and outbound calls *)

Record request := {
  product : loc;
  callback : nat
}.

(** The value stored under a product id in [byProduct]. *)
Record batch := {
  bproduct : loc;
  callbacks : list nat
}.

(** Modelled from the spec: [store.utils.ajax] is not among the sources.
    By the wire contract the request body is the serialized product, so
    the body is what the product and its [additionalData] hold at the
    moment of the call. *)
Record payload := {
  payload_id : string;
  payload_additionalData : option (gmap string value);
  payload_fields : list (string * value)
}.

Definition serialize (h : heap) (p : loc) : payload :=
  let x := product_at h p in
  {| payload_id := id x;
     payload_additionalData := object_at h <$> additionalData x;
     payload_fields := fields x |}.

(** The options object passed to [store.utils.ajax]; [waiting] is the
    [request] variable the two handlers close over. *)
Record ajax_options := {
  url : value;
  method : string;
  data : loc;
  body : payload;
  waiting : batch
}.

Inductive event :=
| Callback (cb : nat) (ok : value) (result : value)
| Prepare (p : loc) (cb : nat)
| Validator (f : nat) (p : loc) (cb : nat)
| Ajax (call : ajax_options).

Arguments Prepare p%_positive cb%_nat.
Arguments Validator f%_nat p%_positive cb%_nat.

(** ** Module and host state *)

(** [store.validator], [store.getApplicationUsername] and
    [store._prepareForValidation]; the module variables
    [validationRequests] and [timeout]; the host's store of objects,
    pending timers (handle and due time, in ms), clock; and the calls
    made to the outside so far, oldest first. *)
Record state := {
  validator : value;
  getApplicationUsername : heap → loc → value;
  _prepareForValidation : option (loc → heap → heap);
  validationRequests : list request;
  timeout : option positive;
  store_heap : heap;
  timers : gmap positive nat;
  next_timer : positive;
  now : nat;
  trace : list event
}.

Definition with_queue (q : list request) (st : state) : state :=
  {| validator := validator st;
     getApplicationUsername := getApplicationUsername st;
     _prepareForValidation := _prepareForValidation st;
     validationRequests := q;
     timeout := timeout st;
     store_heap := store_heap st;
     timers := timers st;
     next_timer := next_timer st;
     now := now st;
     trace := trace st |}.

Definition with_timeout (t : option positive) (st : state) : state :=
  {| validator := validator st;
     getApplicationUsername := getApplicationUsername st;
     _prepareForValidation := _prepareForValidation st;
     validationRequests := validationRequests st;
     timeout := t;
     store_heap := store_heap st;
     timers := timers st;
     next_timer := next_timer st;
     now := now st;
     trace := trace st |}.

Definition with_heap (h : heap) (st : state) : state :=
  {| validator := validator st;
     getApplicationUsername := getApplicationUsername st;
     _prepareForValidation := _prepareForValidation st;
     validationRequests := validationRequests st;
     timeout := timeout st;
     store_heap := h;
     timers := timers st;
     next_timer := next_timer st;
     now := now st;
     trace := trace st |}.

Definition with_timers (ts : gmap positive nat) (n : positive) (st : state) : state :=
  {| validator := validator st;
     getApplicationUsername := getApplicationUsername st;
     _prepareForValidation := _prepareForValidation st;
     validationRequests := validationRequests st;
     timeout := timeout st;
     store_heap := store_heap st;
     timers := ts;
     next_timer := n;
     now := now st;
     trace := trace st |}.

Definition with_now (t : nat) (st : state) : state :=
  {| validator := validator st;
     getApplicationUsername := getApplicationUsername st;
     _prepareForValidation := _prepareForValidation st;
     validationRequests := validationRequests st;
     timeout := timeout st;
     store_heap := store_heap st;
     timers := timers st;
     next_timer := next_timer st;
     now := t;
     trace := trace st |}.

Definition with_validator (v : value) (st : state) : state :=
  {| validator := v;
     getApplicationUsername := getApplicationUsername st;
     _prepareForValidation := _prepareForValidation st;
     validationRequests := validationRequests st;
     timeout := timeout st;
     store_heap := store_heap st;
     timers := timers st;
     next_timer := next_timer st;
     now := now st;
     trace := trace st |}.

Definition emit (evs : list event) (st : state) : state :=
  {| validator := validator st;
     getApplicationUsername := getApplicationUsername st;
     _prepareForValidation := _prepareForValidation st;
     validationRequests := validationRequests st;
     timeout := timeout st;
     store_heap := store_heap st;
     timers := timers st;
     next_timer := next_timer st;
     now := now st;
     trace := trace st ++ evs |}.

(** ** [byProduct]: an object literal used as a dictionary *)

(** The names every object literal inherits from [Object.prototype]
    (ECMAScript 5.1, section 15.2.4, and the accessors of Annex B).  Each
    holds a function or an object there, so reading one of them through
    [{}] gives a truthy value, and that value has no [callbacks]. *)
Definition Object_prototype : list string :=
  ["constructor"; "toString"; "toLocaleString"; "valueOf"; "hasOwnProperty";
   "isPrototypeOf"; "propertyIsEnumerable"; "__proto__"; "__defineGetter__";
   "__defineSetter__"; "__lookupGetter__"; "__lookupSetter__"].

Definition inherited (k : string) : bool := bool_decide (k ∈ Object_prototype).

(** What [byProduct[productId]] evaluates to: own properties are kept in
    creation order and shadow the inherited ones. *)
Inductive property :=
| Own (b : batch)
| Inherited
| Missing.

Definition read (o : list (string * batch)) (k : string) : property :=
  match assoc k o with
  | Some b => Own b
  | None => if inherited k then Inherited else Missing
  end.

(** Assignment to the properties of the batch stored under [k]. *)
Fixpoint update (k : string) (f : batch → batch) (o : list (string * batch))
  : list (string * batch) :=
  match o with
  | [] => []
  | (k', b) :: o =>
      if decide (k = k') then (k', f b) :: o else (k', b) :: update k f o
  end.

(** A function that either returns or throws, leaving the state it reached. *)
Inductive outcome (S : Type) :=
| Returned (s : S)
| Threw (e : exn) (s : S).
Arguments Returned {S} s.
Arguments Threw {S} e s.

Definition state_of {S} (o : outcome S) : S :=
  match o with
  | Returned s => s
  | Threw _ s => s
  end.

(** [l.forEach(f)]: an exception in [f] ends the loop. *)
Fixpoint forEach {A S} (l : list A) (f : A → S → outcome S) (s : S) : outcome S :=
  match l with
  | [] => Returned s
  | x :: l =>
      match f x s with
      | Returned s' => forEach l f s'
      | Threw e s' => Threw e s'
      end
  end.

(** The body of the first loop of [runValidation]. *)
Definition merge_request (h : heap) (r : request) (byProduct : list (string * batch))
  : outcome (list (string * batch)) :=
  let productId := id (product_at h (product r)) in
  match read byProduct productId with
  | Own _ =>
      Returned (update productId
                  (λ b, {| bproduct := product r;
                           callbacks := callbacks b ++ [callback r] |})
                  byProduct)
  | Inherited =>
      Threw (TypeError "Cannot read property 'push' of undefined") byProduct
  | Missing =>
      Returned (byProduct ++
                  [(productId, {| bproduct := product r;
                                  callbacks := [callback r] |})])
  end.

(** *** [Object.keys] *)

Definition digit (c : Ascii.ascii) : option N :=
  let n := Ascii.N_of_ascii c in
  if decide (48 ≤ n ∧ n ≤ 57)%N then Some (n - 48)%N else None.

Fixpoint parse_decimal (s : string) (acc : N) : option N :=
  match s with
  | EmptyString => Some acc
  | String c s =>
      match digit c with
      | Some d => parse_decimal s (10 * acc + d)%N
      | None => None
      end
  end.

(** A key is an array index when it is the canonical decimal form of an
    integer below [2^32 - 1]. *)
Definition array_index (k : string) : option N :=
  match parse_decimal k 0 with
  | Some n =>
      if decide (pretty n = k ∧ (n < 2 ^ 32 - 1)%N) then Some n else None
  | None => None
  end.

Definition index_le (x y : N * string) : Prop := (x.1 ≤ y.1)%N.

#[global] Instance index_le_dec x y : Decision (index_le x y) :=
  N.le_dec x.1 y.1.

(** The own keys: array indices first, in ascending order, then the other
    names in the order the properties were created. *)
Definition Object_keys (o : list (string * batch)) : list string :=
  let ks := o.*1 in
  (merge_sort index_le
     (omap (λ k, (λ n, (n, k)) <$> array_index k) ks)).*2
  ++ filter (λ k, array_index k = None) ks.

(** ** [runValidation] *)

(** [if (!product.additionalData) product.additionalData = {};] *)
Definition ensure_additionalData (p : loc) (h : heap) : loc * heap :=
  let x := product_at h p in
  match additionalData x with
  | Some a => (a, h)
  | None =>
      let a := new_object h in
      (a, set_product p {| id := id x; additionalData := Some a; fields := fields x |}
            (set_object a ∅ h))
  end.

(** The three statements that make sure [applicationUsername] is sent. *)
Definition normalize (getUser : heap → loc → value) (p : loc) (h : heap) : heap :=
  let '(a, h) := ensure_additionalData p h in
  let h :=
    if truthy (get (object_at h a) "applicationUsername") then h
    else set_object a (<["applicationUsername" := getUser h p]> (object_at h a)) h in
  let h :=
    if truthy (get (object_at h a) "applicationUsername") then h
    else set_object a (delete "applicationUsername" (object_at h a)) h in
  h.

(** The body of the second loop, for the batch found under a key. *)
Definition post (b : batch) (st : state) : state :=
  let product := bproduct b in
  let h := normalize (getApplicationUsername st) product (store_heap st) in
  emit [Ajax {| url := validator st;
                method := "POST";
                data := product;
                body := serialize h product;
                waiting := b |}]
       (with_heap h st).

Definition post_key (byProduct : list (string * batch)) (productId : string)
  (st : state) : outcome state :=
  match read byProduct productId with
  | Own b => Returned (post b st)
  | _ => Threw (TypeError "Cannot read property 'product' of undefined") st
  end.

(** The two loops: merge the captured requests by product, then run one
    validation request for each product. *)
Definition dispatchAll (requests : list request) (st : state) : outcome state :=
  match forEach requests (merge_request (store_heap st)) [] with
  | Threw e _ => Threw e st
  | Returned byProduct =>
      forEach (Object_keys byProduct) (post_key byProduct) st
  end.

Definition runValidation (st : state) : outcome state :=
  let st := with_timeout None st in
  let requests := validationRequests st in
  let st := with_queue [] st in
  dispatchAll requests st.

(** *** The two handlers given to [store.utils.ajax] *)

Definition success (call : ajax_options) (response : json) (st : state)
  : outcome state :=
  forEach (callbacks (waiting call))
    (λ cb st,
       match
         ok ← (if json_truthy response then field response "ok"
               else Normal (VData response));
         result ← field response "data";
         Normal (Callback cb ok result)
       with
       | Normal ev => Returned (emit [ev] st)
       | Throw e => Threw e st
       end)
    st.

Definition error (call : ajax_options) (status : Z) (message : string)
  (st : state) : outcome state :=
  let fullMessage := "Error " +:+ pretty status +:+ ": " +:+ message in
  forEach (callbacks (waiting call))
    (λ cb st, Returned (emit [Callback cb VFalse (VStr fullMessage)] st))
    st.

(** ** [scheduleValidation] *)

(** The host's timers: [setTimeout] hands out a handle never used before
    (a positive number, hence truthy) and records when the timer is due;
    [clearTimeout] forgets the timer. *)
Definition setTimeout (delay : nat) (st : state) : positive * state :=
  let h := next_timer st in
  (h, with_timers (<[h := now st + delay]> (timers st)) (Pos.succ h) st).

Definition clearTimeout (h : positive) (st : state) : state :=
  with_timers (delete h (timers st)) (next_timer st) st.

Definition scheduleValidation (st : state) : state :=
  let st :=
    match timeout st with
    | Some h => clearTimeout h st
    | None => st
    end in
  let '(h, st) := setTimeout 1500 st in
  with_timeout (Some h) st.

(** The string branch of [store._validator]. *)
Definition enqueue (r : request) (st : state) : state :=
  scheduleValidation (with_queue (validationRequests st ++ [r]) st).

(** ** [store._validator] *)

(** The call through [store.validator] when it is not a string. *)
Definition delegate (product : loc) (callback : nat) (st : state) : outcome state :=
  match validator st with
  | VFunction f => Returned (emit [Validator f product callback] st)
  | _ => Threw (TypeError "store.validator is not a function") st
  end.

(** The pre-validation step is known by its effect on the store of
    objects (a receipt refresh); by its contract it calls [onDone] once.
    The recursion goes through that callback, so it is bounded by [fuel]. *)
Fixpoint _validator (fuel : nat) (product : loc) (callback : nat)
  (isPrepared : value) (st : state) : option (outcome state) :=
  match fuel with
  | O => None
  | S fuel =>
      if negb (truthy (validator st)) then
        Some (Returned (emit [Callback callback VTrue (VProduct product)] st))
      else
        let direct :=
          match validator st with
          | VData (JString _) =>
              Returned (enqueue {| product := product; callback := callback |} st)
          | _ => delegate product callback st
          end in
        match _prepareForValidation st with
        | Some prepare =>
            if negb (is_true isPrepared) then
              let onDone := _validator fuel product callback VTrue in
              onDone (with_heap (prepare product (store_heap st))
                        (emit [Prepare product callback] st))
            else Some direct
        | None => Some direct
        end
  end.

Arguments _validator fuel%_nat product%_positive callback%_nat isPrepared st.

(** ** The host: what can happen to the module, one event at a time *)

(** The calls issued so far, as recorded in the trace. *)
Definition calls (evs : list event) : list ajax_options :=
  omap (λ ev, match ev with Ajax c => Some c | _ => None end) evs.

Inductive host_event :=
| Tick (d : nat)
| Call (product : loc) (callback : nat) (isPrepared : value)
| Fire (h : positive)
| Succeed (n : nat) (response : json)
| Fail (n : nat) (status : Z) (message : string)
| Configure (v : value)
| Mutate (f : heap → heap).

Arguments Call product%_positive callback%_nat isPrepared.
Arguments Fire h%_positive.

(** The state after the event, or [None] when the event cannot happen:
    a timer runs only once it is due, at which point it is no longer
    pending; a response answers a call that was made, the [n]-th one.  An
    exception that escapes a handler is reported by the host and leaves
    the state as the handler left it. *)
Definition host_step (ev : host_event) (st : state) : option state :=
  match ev with
  | Tick d => Some (with_now (now st + d) st)
  | Call product callback isPrepared =>
      state_of <$> _validator 2 product callback isPrepared st
  | Fire h =>
      match timers st !! h with
      | Some due =>
          if decide (due ≤ now st) then
            Some (state_of (runValidation
                              (with_timers (delete h (timers st)) (next_timer st) st)))
          else None
      | None => None
      end
  | Succeed n response =>
      (λ call, state_of (success call response st)) <$> calls (trace st) !! n
  | Fail n status message =>
      (λ call, state_of (error call status message st)) <$> calls (trace st) !! n
  | Configure v => Some (with_validator v st)
  | Mutate f => Some (with_heap (f (store_heap st)) st)
  end.

Fixpoint run (evs : list host_event) (st : state) : option state :=
  match evs with
  | [] => Some st
  | ev :: evs =>
      match host_step ev st with
      | Some st' => run evs st'
      | None => None
      end
  end.

(** The module as loaded: an empty queue and no timer. *)
Definition loaded (st : state) : Prop :=
  validationRequests st = [] ∧ timeout st = None ∧ timers st = ∅.

(** What an event adds to the queue, and what it takes out of it. *)
Definition pushes (ev : host_event) (st : state) : list request :=
  match ev with
  | Call _ _ _ =>
      match host_step ev st with
      | Some st' => drop (length (validationRequests st)) (validationRequests st')
      | None => []
      end
  | _ => []
  end.

Definition captures (ev : host_event) (st : state) : list request :=
  match ev with
  | Fire _ => validationRequests st
  | _ => []
  end.

(** Along a run: every request pushed, every request captured by a firing
    timer, and the time of the latest push. *)
Fixpoint pushed (evs : list host_event) (st : state) : list request :=
  match evs with
  | [] => []
  | ev :: evs =>
      match host_step ev st with
      | Some st' => pushes ev st ++ pushed evs st'
      | None => []
      end
  end.

Fixpoint captured (evs : list host_event) (st : state) : list request :=
  match evs with
  | [] => []
  | ev :: evs =>
      match host_step ev st with
      | Some st' => captures ev st ++ captured evs st'
      | None => []
      end
  end.

Fixpoint last_push (evs : list host_event) (st : state) (seen : option nat)
  : option nat :=
  match evs with
  | [] => seen
  | ev :: evs =>
      match host_step ev st with
      | Some st' =>
          last_push evs st'
            (match pushes ev st with [] => seen | _ => Some (now st) end)
      | None => seen
      end
  end.

(** * Vocabulary of the properties *)

(** ** Entry point *)



(** The last two branches, reached once the pre-step is out of the way. *)
Definition route (product : loc) (callback : nat) (st : state) : outcome state :=
  match validator st with
  | VData (JString _) =>
      Returned (enqueue {| product := product; callback := callback |} st)
  | _ => delegate product callback st
  end.

Definition req (p : loc) (cb : nat) : request := {| product := p; callback := cb |}.
Arguments req p%_positive cb%_nat.

(** ** Responses *)

(** The first argument handed to the callbacks: [data && data.ok]. *)
Definition ok_of (response : json) : value :=
  if json_truthy response then
    match response with
    | JObject props =>
        match assoc "ok" props with Some j => VData j | None => VUndefined end
    | _ => VUndefined
    end
  else VData response.

(** The second argument: [data.data]. *)
Definition data_of (response : json) : value :=
  match response with
  | JObject props =>
      match assoc "data" props with Some j => VData j | None => VUndefined end
  | _ => VUndefined
  end.

(** ** Queue and timer *)

(** The part of the state the scheduler owns. *)
Definition sched (st : state)
  : list request * option positive * gmap positive nat * positive * nat :=
  (validationRequests st, timeout st, timers st, next_timer st, now st).

(** Every pending timer is the one whose handle [timeout] holds. *)
Definition one_timer (st : state) : Prop :=
  ∀ h due, timers st !! h = Some due → timeout st = Some h.

(** Pending timers, against the time of the latest push. *)
Definition timers_due (seen : option nat) (st : state) : Prop :=
  one_timer st
  ∧ ∀ h due, timers st !! h = Some due → ∃ t, seen = Some t ∧ due = t + 1500.

(** The handle in [timeout] is one the host has handed out. *)
Definition handle_issued (st : state) : Prop :=
  ∀ h, timeout st = Some h → (h < next_timer st)%positive.

Definition outcome_map {S} (g : S → S) (o : outcome S) : outcome S :=
  match o with
  | Returned s => Returned (g s)
  | Threw e s => Threw e (g s)
  end.

(** The state [runValidation] dispatches from. *)
Definition captured_state (st : state) : state :=
  with_queue [] (with_timeout None st).

(** ** Normalization *)

(** What the three statements make of an [additionalData] object [o]
    when the resolver answers [v]. *)
Definition normalized (o : gmap string value) (v : value) : gmap string value :=
  if truthy (get o "applicationUsername") then o
  else if truthy v then <["applicationUsername" := v]> o
       else delete "applicationUsername" o.

(** The key is absent or holds a truthy value. *)
Definition username_ok (o : gmap string value) : Prop :=
  o !! "applicationUsername" = None
  ∨ ∃ v, o !! "applicationUsername" = Some v ∧ truthy v = true.

(** The object a product carries before it is normalized. *)
Definition additionalData_before (h : heap) (p : loc) : gmap string value :=
  match additionalData (product_at h p) with
  | Some a => object_at h a
  | None => ∅
  end.

(** The resolver is asked once [additionalData] exists. *)
Definition resolved (st : state) (p : loc) : value :=
  getApplicationUsername st (ensure_additionalData p (store_heap st)).2 p.

(** A product that carries an [additionalData] object whose
    [applicationUsername] is absent or truthy. *)
Definition settled (h : heap) (p : loc) : Prop :=
  ∃ a, additionalData (product_at h p) = Some a ∧ username_ok (object_at h a).

(** ** Batches and calls *)

(** The call made for a batch. *)
Definition call_of (b : batch) (st : state) : ajax_options :=
  let p := bproduct b in
  let x := product_at (store_heap st) p in
  {| url := validator st;
     method := "POST";
     data := p;
     body := {| payload_id := id x;
                payload_additionalData :=
                  Some (normalized (additionalData_before (store_heap st) p)
                          (resolved st p));
                payload_fields := fields x |};
     waiting := b |}.

(** The calls made for a list of batches, in order. *)
Fixpoint calls_of (bs : list batch) (st : state) : list ajax_options :=
  match bs with
  | [] => []
  | b :: bs => call_of b st :: calls_of bs (post b st)
  end.

(** The product id a request carries, and the requests carrying an id. *)
Definition idof (h : heap) (r : request) : string := id (product_at h (product r)).

Definition carrying (h : heap) (k : string) (rs : list request) : list request :=
  filter (λ r, idof h r = k) rs.

(** What the first loop has built once it has been through [rs]: one
    entry for each id met, holding the callbacks of all the requests
    with that id, in order, and the product of the last of them. *)
Record grouped (h : heap) (rs : list request) (acc : list (string * batch)) : Prop := {
  grouped_NoDup : NoDup acc.*1;
  grouped_keys : ∀ k, k ∈ acc.*1 ↔ k ∈ idof h <$> rs;
  grouped_batch : ∀ k b,
    assoc k acc = Some b →
    callbacks b = callback <$> carrying h k rs
    ∧ last (product <$> carrying h k rs) = Some (bproduct b)
}.

(** The batches, in the order of the keys. *)
Definition batches (byProduct : list (string * batch)) : list batch :=
  omap (λ k, assoc k byProduct) (Object_keys byProduct).

(** ** Further vocabulary *)

(** The callbacks called so far, in order. *)
Definition invoked (evs : list event) : list nat :=
  omap (λ ev, match ev with Callback cb _ _ => Some cb | _ => None end) evs.

(** The custom validator calls made so far. *)
Definition delegated (evs : list event) : list (nat * loc * nat) :=
  omap (λ ev, match ev with Validator f p cb => Some (f, p, cb) | _ => None end) evs.


(** The ids of a list, each at its first appearance. *)
Definition first_seen (ks : list string) : list string :=
  foldl (λ seen k, if decide (k ∈ seen) then seen else seen ++ [k]) [] ks.

(** All the callbacks held by the entries of [byProduct]. *)
Definition held (acc : list (string * batch)) : list nat :=
  concat (callbacks <$> acc.*2).

(** Either nothing is queued and no timer is set, or requests are queued
    and exactly one timer is pending, the one [timeout] holds. *)
Definition idle_or_waiting (st : state) : Prop :=
  (validationRequests st = [] ∧ timeout st = None ∧ timers st = ∅)
  ∨ (validationRequests st ≠ []
     ∧ ∃ h due, timeout st = Some h ∧ timers st = {[ h := due ]}).

(** ** Sample stores *)

Definition sample_products : heap :=
  {| products :=
       {[ 1%positive := {| id := "a"; additionalData := None; fields := [] |};
          2%positive := {| id := "a"; additionalData := None;
                           fields := [("price", VStr "$1")] |};
          3%positive := {| id := "b"; additionalData := Some 1%positive; fields := [] |};
          4%positive := {| id := "constructor"; additionalData := None; fields := [] |} ]};
     objects := {[ 1%positive := {[ "applicationUsername" := VStr "" ]} ]} |}.

Definition sample_url : value := VStr "https://validator.example".

Definition sample (v : value) (prepare : option (loc → heap → heap))
  (q : list request) : state :=
  {| validator := v;
     getApplicationUsername := λ _ _, VStr "alice";
     _prepareForValidation := prepare;
     validationRequests := q;
     timeout := None;
     store_heap := sample_products;
     timers := ∅;
     next_timer := 1;
     now := 0;
     trace := [] |}.

Definition sample_call : ajax_options :=
  {| url := sample_url;
     method := "POST";
     data := 2%positive;
     body := serialize sample_products 2%positive;
     waiting := {| bproduct := 2%positive; callbacks := [3; 5] |} |}.

(** * Properties *)

(** ** Bookkeeping on states *)

Lemma emit_nil st : emit [] st = st.
Proof. destruct st; unfold emit; simpl. by rewrite app_nil_r. Qed.

Lemma emit_emit evs1 evs2 st : emit evs2 (emit evs1 st) = emit (evs1 ++ evs2) st.
Proof. unfold emit; simpl. by rewrite app_assoc. Qed.

Lemma calls_app evs1 evs2 : calls (evs1 ++ evs2) = calls evs1 ++ calls evs2.
Proof. apply omap_app. Qed.

(** A loop whose body never throws is a left fold. *)
Lemma forEach_total {A S} (f : A → S → S) (l : list A) (s : S) :
  forEach l (λ x s, Returned (f x s)) s = Returned (foldl (flip f) s l).
Proof. revert s. induction l as [|x l IH]; intros s; simpl; [done | apply IH]. Qed.

Lemma foldl_emit (g : nat → event) (cbs : list nat) (st : state) :
  foldl (flip (λ cb st, emit [g cb] st)) st cbs = emit (g <$> cbs) st.
Proof.
  revert st. induction cbs as [|cb cbs IH]; intros st; simpl.
  - by rewrite emit_nil.
  - rewrite IH. unfold flip. by rewrite emit_emit.
Qed.

(** ** The entry point *)

Section entry_point.
Implicit Types (st : state) (product : loc) (callback : nat) (isPrepared : value).


Lemma enqueue_trace r st : trace (enqueue r st) = trace st.
Proof. unfold enqueue, scheduleValidation; simpl. by destruct (timeout st). Qed.


Lemma _validator_unfold fuel product callback isPrepared st :
  _validator (S fuel) product callback isPrepared st
  = if truthy (validator st) then
      match _prepareForValidation st with
      | Some prepare =>
          if is_true isPrepared then Some (route product callback st)
          else _validator fuel product callback VTrue
                 (with_heap (prepare product (store_heap st))
                    (emit [Prepare product callback] st))
      | None => Some (route product callback st)
      end
    else Some (Returned (emit [Callback callback VTrue (VProduct product)] st)).
Proof.
  cbn [_validator]. destruct (truthy (validator st)); cbn [negb]; [|done].
  destruct (_prepareForValidation st); [|done].
  by destruct (is_true isPrepared).
Qed.

(** A call that says it is prepared needs no further call. *)
Lemma _validator_prepared fuel product callback st :
  _validator (S fuel) product callback VTrue st
  = Some (if truthy (validator st) then route product callback st
          else Returned (emit [Callback callback VTrue (VProduct product)] st)).
Proof.
  simpl. destruct (truthy (validator st)); simpl; [|done].
  by destruct (_prepareForValidation st).
Qed.
End entry_point.

(** ** Claims on the entry point *)

(** C5. With no validator configured, [store._validator] calls
    [callback(true, product)] before it returns, and does nothing else: no
    call to the transport, the queue, the timer handle and the pending
    timers are as they were. *)
Theorem bypass_without_validator fuel product callback isPrepared st :
  truthy (validator st) = false →
  ∃ st',
    _validator (S fuel) product callback isPrepared st = Some (Returned st')
    ∧ trace st' = trace st ++ [Callback callback VTrue (VProduct product)]
    ∧ calls (trace st') = calls (trace st)
    ∧ validationRequests st' = validationRequests st
    ∧ timeout st' = timeout st
    ∧ timers st' = timers st.
Proof.
  intros Hv. eexists. split.
  - simpl. rewrite Hv. reflexivity.
  - cbn [emit trace validationRequests timeout timers].
    rewrite calls_app. cbn. by rewrite app_nil_r.
Qed.

Lemma bypass_without_validator_witness :
  ∃ st',
    _validator 1 2 7 VUndefined (sample VNullV None [req 1 3])
    = Some (Returned st')
    ∧ trace st' = [Callback 7 VTrue (VProduct 2)]
    ∧ calls (trace st') = []
    ∧ validationRequests st' = [req 1 3]
    ∧ timeout st' = None
    ∧ timers st' = ∅.
Proof.
  apply (bypass_without_validator 0 2%positive 7 VUndefined
           (sample VNullV None [req 1 3])).
  reflexivity.
Defined.




(** ** Claims on the response handlers *)

Section handlers.
Implicit Types (call : ajax_options) (st : state).

(** Any body but [null] reaches every callback of the batch, with one
    and the same pair of arguments. *)
Lemma success_not_null call response st :
  response ≠ JNull →
  success call response st
  = Returned (emit ((λ cb, Callback cb (ok_of response) (data_of response))
                      <$> callbacks (waiting call)) st).
Proof.
  intros Hnull. unfold success.
  assert (E : ∀ cb,
    (ok ← (if json_truthy response then field response "ok"
           else Normal (VData response));
     result ← field response "data";
     Normal (Callback cb ok result))
    = Normal (Callback cb (ok_of response) (data_of response))).
  { intros cb. unfold ok_of, data_of.
    destruct response as [|b|n|s|items|props]; try done;
      simpl; by repeat case_match. }
  transitivity (forEach (callbacks (waiting call))
    (λ cb st, Returned
       (emit [Callback cb (ok_of response) (data_of response)] st)) st).
  - generalize (callbacks (waiting call)) as cbs. intros cbs. revert st.
    induction cbs as [|cb cbs IH]; intros st; simpl; [done|].
    rewrite E. apply IH.
  - rewrite (forEach_total
      (λ cb st, emit [Callback cb (ok_of response) (data_of response)] st)).
    by rewrite (foldl_emit (λ cb, Callback cb (ok_of response) (data_of response))).
Qed.

(** A failure reaches every callback of the batch, with one and the
    same message. *)
Lemma error_fans_out call status message st :
  error call status message st
  = Returned (emit ((λ cb, Callback cb VFalse
                             (VStr ("Error " +:+ pretty status +:+ ": " +:+ message)))
                      <$> callbacks (waiting call)) st).
Proof.
  unfold error.
  rewrite (forEach_total (λ cb st, emit [Callback cb VFalse
             (VStr ("Error " +:+ pretty status +:+ ": " +:+ message))] st)).
  by rewrite (foldl_emit (λ cb, Callback cb VFalse
             (VStr ("Error " +:+ pretty status +:+ ": " +:+ message)))).
Qed.

(** A missing [ok] reaches the callbacks as a falsy value. *)
Lemma ok_of_missing props :
  assoc "ok" props = None → ok_of (JObject props) = VUndefined.
Proof. intros E. unfold ok_of; simpl. by rewrite E. Qed.

Lemma ok_of_falsy response :
  json_truthy response = false → truthy (ok_of response) = false.
Proof. intros E. unfold ok_of. rewrite E. exact E. Qed.
End handlers.

(** C7. When the transport reports a failure with status [S] and message
    [M], every callback of the batch is called with [false] and the string
    "Error S: M"; status 500 with "Internal Error" gives
    "Error 500: Internal Error". *)
Theorem transport_failure call status message st :
  error call status message st
  = Returned (emit ((λ cb, Callback cb VFalse
                             (VStr ("Error " +:+ pretty status +:+ ": " +:+ message)))
                      <$> callbacks (waiting call)) st)
  ∧ (status = 500%Z → message = "Internal Error" →
     error call status message st
     = Returned (emit ((λ cb, Callback cb VFalse (VStr "Error 500: Internal Error"))
                         <$> callbacks (waiting call)) st)).
Proof.
  split; [apply error_fans_out|]. intros -> ->. apply error_fans_out.
Qed.

Lemma transport_failure_witness :
  error sample_call 500 "Internal Error" (sample sample_url None [])
  = Returned (emit [Callback 3 VFalse (VStr "Error 500: Internal Error");
                    Callback 5 VFalse (VStr "Error 500: Internal Error")]
                (sample sample_url None [])).
Proof.
  exact (proj2 (transport_failure sample_call 500 "Internal Error"
                  (sample sample_url None []))
           eq_refl eq_refl).
Defined.

(** C9, at the input where the code departs from it: a success response
    whose body is [null].  [data && data.ok] is evaluated, then [data.data]
    throws, so the handler ends with a TypeError and no callback of the
    batch is called. *)
Theorem success_null_body_throws call st cb cbs :
  callbacks (waiting call) = cb :: cbs →
  success call JNull st
  = Threw (TypeError "Cannot read property 'data' of null") st.
Proof. intros E. unfold success. rewrite E. reflexivity. Qed.

Lemma success_null_body_throws_witness :
  success sample_call JNull (sample sample_url None [])
  = Threw (TypeError "Cannot read property 'data' of null")
      (sample sample_url None []).
Proof.
  exact (success_null_body_throws sample_call
           (sample sample_url None []) 3 [5] eq_refl).
Defined.

(** ** The queue and the timer *)

Section scheduler.
Implicit Types (st : state) (r : request) (h : positive).

Lemma enqueue_queue r st :
  validationRequests (enqueue r st) = validationRequests st ++ [r].
Proof. unfold enqueue, scheduleValidation; simpl. by destruct (timeout st). Qed.

Lemma enqueue_timeout r st : timeout (enqueue r st) = Some (next_timer st).
Proof. unfold enqueue, scheduleValidation; simpl. by destruct (timeout st). Qed.

Lemma enqueue_now r st : now (enqueue r st) = now st.
Proof. unfold enqueue, scheduleValidation; simpl. by destruct (timeout st). Qed.

Lemma enqueue_timers r st :
  timers (enqueue r st)
  = <[next_timer st := now st + 1500]>
      (match timeout st with
       | Some h => delete h (timers st)
       | None => timers st
       end).
Proof. unfold enqueue, scheduleValidation; simpl. by destruct (timeout st). Qed.

Lemma enqueue_next_timer r st : next_timer (enqueue r st) = Pos.succ (next_timer st).
Proof. unfold enqueue, scheduleValidation; simpl. by destruct (timeout st). Qed.

Lemma enqueue_sched r st1 st2 :
  sched st1 = sched st2 → sched (enqueue r st1) = sched (enqueue r st2).
Proof.
  unfold sched. intros [= Hq Ht Hts Hn Hnow].
  rewrite !enqueue_queue, !enqueue_timeout, !enqueue_timers,
    !enqueue_next_timer, !enqueue_now.
  by rewrite Hq, Ht, Hts, Hn, Hnow.
Qed.

Lemma one_timer_sched st1 st2 : sched st1 = sched st2 → one_timer st1 → one_timer st2.
Proof. unfold sched, one_timer. intros [= Hq Ht Hts Hn Hnow]. by rewrite <-Ht, <-Hts. Qed.

Lemma one_timer_cleared st :
  one_timer st →
  match timeout st with
  | Some h => delete h (timers st)
  | None => timers st
  end = ∅.
Proof.
  intros Hone. apply map_eq. intros h'. rewrite lookup_empty.
  destruct (timeout st) as [h|] eqn:Ht.
  - destruct (decide (h = h')) as [->|Hne].
    + apply lookup_delete_eq.
    + rewrite lookup_delete_ne by done.
      destruct (timers st !! h') as [due|] eqn:E; [|done].
      apply Hone in E. congruence.
  - destruct (timers st !! h') as [due|] eqn:E; [|done].
    apply Hone in E. congruence.
Qed.

(** After an enqueue one timer is pending, due 1500 ms from now. *)
Lemma enqueue_restarts r st :
  one_timer st →
  timers (enqueue r st) = {[ next_timer st := now st + 1500 ]}.
Proof.
  intros Hone. rewrite enqueue_timers, one_timer_cleared by done.
  apply insert_empty.
Qed.

(** *** What the two loops leave alone *)

Lemma forEach_state_of {A S} (P : S → Prop) (f : A → S → outcome S) l s :
  (∀ x s, P s → P (state_of (f x s))) → P s → P (state_of (forEach l f s)).
Proof.
  intros Hf. revert s. induction l as [|x l IH]; intros s Hs; simpl; [done|].
  specialize (Hf x s Hs). destruct (f x s) as [s'|e s']; simpl in *; auto.
Qed.

Lemma dispatchAll_sched requests st :
  sched (state_of (dispatchAll requests st)) = sched st.
Proof.
  unfold dispatchAll.
  destruct (forEach requests _ []) as [byProduct|e ?]; [|done].
  apply (forEach_state_of (λ s, sched s = sched st)); [|done].
  intros k s Hs. unfold post_key. by destruct (read byProduct k).
Qed.

Lemma runValidation_sched st :
  sched (state_of (runValidation st))
  = ([], None, timers st, next_timer st, now st).
Proof. unfold runValidation. by rewrite dispatchAll_sched. Qed.
End scheduler.

(** ** One event at a time *)

Section host.
Implicit Types (st : state) (ev : host_event) (evs : list host_event).

Lemma route_sched product callback st :
  sched (state_of (route product callback st)) = sched st
  ∨ (sched (state_of (route product callback st))
     = sched (enqueue (req product callback) st)
     ∧ ∃ s, validator st = VStr s).
Proof.
  unfold route, delegate.
  destruct (validator st) as [|[| | |s| |]| |]; eauto.
Qed.

(** A call of the entry point either leaves the scheduler alone or
    enqueues the request it was given. *)
Lemma _validator_sched product callback isPrepared st :
  ∃ o, _validator 2 product callback isPrepared st = Some o
       ∧ (sched (state_of o) = sched st
          ∨ (sched (state_of o) = sched (enqueue (req product callback) st)
             ∧ ∃ s, validator st = VStr s)).
Proof.
  rewrite _validator_unfold.
  destruct (truthy (validator st)) eqn:Hv; [|eauto].
  assert (Hdirect : ∀ st1,
    sched st1 = sched st → validator st1 = validator st →
    sched (state_of (route product callback st1)) = sched st
    ∨ (sched (state_of (route product callback st1))
       = sched (enqueue (req product callback) st)
       ∧ ∃ s, validator st = VStr s)).
  { intros st1 Hs Hv1.
    destruct (route_sched product callback st1) as [E|[E [s Es]]].
    - left. congruence.
    - right. split; [|exists s; congruence].
      rewrite E. by apply enqueue_sched. }
  destruct (_prepareForValidation st) as [prepare|].
  2:{ eexists; split; [done|]. by apply Hdirect. }
  destruct (is_true isPrepared).
  { eexists; split; [done|]. by apply Hdirect. }
  rewrite _validator_prepared. cbn [with_heap emit validator]. rewrite Hv.
  eexists; split; [done|]. by apply Hdirect.
Qed.

Lemma success_sched call response st :
  sched (state_of (success call response st)) = sched st.
Proof.
  unfold success. apply (forEach_state_of (λ s, sched s = sched st)); [|done].
  intros cb s Hs. by case_match.
Qed.

Lemma error_sched call status message st :
  sched (state_of (error call status message st)) = sched st.
Proof.
  unfold error. by apply (forEach_state_of (λ s, sched s = sched st)).
Qed.

Lemma drop_all {A} (l : list A) : drop (length l) l = [].
Proof. by apply drop_ge. Qed.

(** What each event does to the scheduler's part of the state. *)
Lemma host_step_sched ev st st' :
  host_step ev st = Some st' →
  match ev with
  | Tick d =>
      sched st' = (validationRequests st, timeout st, timers st, next_timer st, now st + d)
      ∧ pushes ev st = []
  | Call product callback _ =>
      (sched st' = sched st ∧ pushes ev st = [])
      ∨ (sched st' = sched (enqueue (req product callback) st)
         ∧ pushes ev st = [req product callback])
  | Fire h =>
      (∃ due, timers st !! h = Some due ∧ due ≤ now st)
      ∧ sched st' = ([], None, delete h (timers st), next_timer st, now st)
      ∧ pushes ev st = []
  | _ => sched st' = sched st ∧ pushes ev st = []
  end.
Proof.
  destruct ev as [d|product callback isPrepared|h|n response|n status message|v|f];
    cbn [host_step]; intros Hstep.
  - by injection Hstep as <-.
  - unfold pushes. cbn [host_step].
    destruct (_validator_sched product callback isPrepared st) as (o & Ho & Hs).
    rewrite Ho in Hstep |- *. cbn in Hstep |- *. injection Hstep as <-.
    destruct Hs as [Hs|[Hs _]].
    + left. split; [done|].
      injection Hs as -> _ _ _ _. apply drop_all.
    + right. split; [done|].
      unfold sched in Hs. rewrite enqueue_queue in Hs.
      injection Hs as -> _ _ _ _. by rewrite drop_app_length.
  - destruct (timers st !! h) as [due|]; [|done].
    case_decide; [|done]. injection Hstep as <-.
    split; [eauto|]. split; [|done]. by rewrite runValidation_sched.
  - destruct (calls (trace st) !! n) as [call|]; [|done].
    injection Hstep as <-. split; [apply success_sched | done].
  - destruct (calls (trace st) !! n) as [call|]; [|done].
    injection Hstep as <-. split; [apply error_sched | done].
  - by injection Hstep as <-.
  - by injection Hstep as <-.
Qed.

Lemma host_step_timers ev st st' seen :
  host_step ev st = Some st' →
  timers_due seen st →
  timers_due (match pushes ev st with [] => seen | _ => Some (now st) end) st'.
Proof.
  intros Hstep [Hone Hdue]. apply host_step_sched in Hstep.
  assert (Hsame : ∀ st', sched st' = sched st → timers_due seen st').
  { intros st2 Hs. split.
    - by apply (one_timer_sched st).
    - injection Hs as Hq Ht Hts Hn Hnow.
      intros h due. rewrite Hts. apply Hdue. }
  destruct ev as [d|product callback isPrepared|h|n response|n status message|v|f].
  - destruct Hstep as [[= Hq Ht Hts Hn Hnow] ->]. split.
    + intros h due. rewrite Hts, Ht. apply Hone.
    + intros h due. rewrite Hts. apply Hdue.
  - destruct Hstep as [[Hs ->]|[Hs ->]]; [by apply Hsame|].
    unfold sched in Hs.
    rewrite enqueue_restarts, enqueue_timeout in Hs by done.
    injection Hs as Hq Ht Hts Hn Hnow.
    split.
    + intros h due. rewrite Hts, Ht. by intros [-> _]%lookup_singleton_Some.
    + intros h due. rewrite Hts. intros [_ <-]%lookup_singleton_Some. eauto.
  - destruct Hstep as ((due & Hh & Hle) & [= Hq Ht Hts Hn Hnow] & ->).
    assert (Hempty : timers st' = ∅).
    { rewrite Hts. pose proof (one_timer_cleared st Hone) as E.
      by rewrite (Hone h due Hh) in E. }
    split.
    + intros h' due'. by rewrite Hempty, lookup_empty.
    + intros h' due'. by rewrite Hempty, lookup_empty.
  - destruct Hstep as [Hs ->]. by apply Hsame.
  - destruct Hstep as [Hs ->]. by apply Hsame.
  - destruct Hstep as [Hs ->]. by apply Hsame.
  - destruct Hstep as [Hs ->]. by apply Hsame.
Qed.

Lemma run_timers evs st st' seen :
  run evs st = Some st' →
  timers_due seen st →
  timers_due (last_push evs st seen) st'.
Proof.
  revert st seen. induction evs as [|ev evs IH]; intros st seen; simpl.
  - by intros [= <-].
  - destruct (host_step ev st) as [st1|] eqn:Hstep; [|done].
    intros Hrun Hinv. apply (IH st1); [done|].
    by apply host_step_timers.
Qed.

Lemma loaded_timers st : loaded st → timers_due None st.
Proof.
  intros (_ & _ & Hts). split; intros h due; by rewrite Hts, lookup_empty.
Qed.

(** Nothing leaves the queue but what a firing timer captures, and
    nothing enters it but what a call pushes. *)
Lemma host_step_queue ev st st' :
  host_step ev st = Some st' →
  validationRequests st ++ pushes ev st = captures ev st ++ validationRequests st'.
Proof.
  intros Hstep. apply host_step_sched in Hstep.
  destruct ev as [d|product callback isPrepared|h|n response|n status message|v|f];
    cbn [captures].
  - destruct Hstep as [[= -> _ _ _ _] ->]. by rewrite app_nil_r.
  - destruct Hstep as [[[= -> _ _ _ _] ->]|[Hs ->]].
    + by rewrite app_nil_r.
    + unfold sched in Hs. rewrite enqueue_queue in Hs.
      by injection Hs as -> _ _ _ _.
  - destruct Hstep as (_ & [= -> _ _ _ _] & ->). done.
  - destruct Hstep as [[= -> _ _ _ _] ->]. by rewrite app_nil_r.
  - destruct Hstep as [[= -> _ _ _ _] ->]. by rewrite app_nil_r.
  - destruct Hstep as [[= -> _ _ _ _] ->]. by rewrite app_nil_r.
  - destruct Hstep as [[= -> _ _ _ _] ->]. by rewrite app_nil_r.
Qed.

Lemma run_queue evs st st' :
  run evs st = Some st' →
  validationRequests st ++ pushed evs st = captured evs st ++ validationRequests st'.
Proof.
  revert st. induction evs as [|ev evs IH]; intros st; simpl.
  - intros [= <-]. by rewrite app_nil_r.
  - destruct (host_step ev st) as [st1|] eqn:Hstep; [|done].
    intros Hrun. rewrite app_assoc, (host_step_queue _ _ _ Hstep), <-!app_assoc.
    f_equal. by apply IH.
Qed.
End host.

Section rounds.
Implicit Types (st : state) (ev : host_event) (evs : list host_event).

Lemma host_step_handle ev st st' :
  host_step ev st = Some st' → handle_issued st → handle_issued st'.
Proof.
  intros Hstep Hh. apply host_step_sched in Hstep.
  assert (Hsame : sched st' = sched st → handle_issued st').
  { intros [= _ Ht _ Hn _] h. rewrite Ht, Hn. apply Hh. }
  destruct ev as [d|product callback isPrepared|h|n response|n status message|v|f];
    try (destruct Hstep as [Hs _]; by apply Hsame).
  - destruct Hstep as [[= _ Ht _ Hn _] _]. intros h. rewrite Ht, Hn. apply Hh.
  - destruct Hstep as [[Hs _]|[Hs _]]; [by apply Hsame|].
    unfold sched in Hs. rewrite enqueue_timeout, enqueue_next_timer in Hs.
    injection Hs as _ Ht _ Hn _. intros h. rewrite Ht, Hn. intros [= <-]. lia.
  - destruct Hstep as (_ & [= _ Ht _ _ _] & _). intros h'. by rewrite Ht.
Qed.

Lemma run_handle evs st st' :
  run evs st = Some st' → handle_issued st → handle_issued st'.
Proof.
  revert st. induction evs as [|ev evs IH]; intros st; simpl.
  - by intros [= <-].
  - destruct (host_step ev st) as [st1|] eqn:Hstep; [|done].
    intros Hrun Hh. apply (IH st1); [done|]. by apply (host_step_handle ev st).
Qed.

(** *** Requests that arrive while a batch is being dispatched *)

Lemma forEach_commute {A S} (g : S → S) (f : A → S → outcome S) l s :
  (∀ x s, f x (g s) = outcome_map g (f x s)) →
  forEach l f (g s) = outcome_map g (forEach l f s).
Proof.
  intros Hf. revert s. induction l as [|x l IH]; intros s; simpl; [done|].
  rewrite Hf. destruct (f x s) as [s'|e s']; simpl; [apply IH | done].
Qed.

Lemma post_enqueue b r st : post b (enqueue r st) = enqueue r (post b st).
Proof.
  unfold post, enqueue, scheduleValidation, setTimeout, clearTimeout; simpl.
  by destruct (timeout st).
Qed.

Lemma enqueue_heap r st : store_heap (enqueue r st) = store_heap st.
Proof. unfold enqueue, scheduleValidation; simpl. by destruct (timeout st). Qed.

Lemma dispatchAll_enqueue requests r st :
  dispatchAll requests (enqueue r st)
  = outcome_map (enqueue r) (dispatchAll requests st).
Proof.
  unfold dispatchAll. rewrite enqueue_heap.
  destruct (forEach requests _ []) as [byProduct|e ?]; [|done].
  apply forEach_commute. intros k s. unfold post_key.
  destruct (read byProduct k); simpl; [|done..]. by rewrite post_enqueue.
Qed.
End rounds.

(** ** Claims on the queue and the timer *)

(** C3. An enqueue appends the request to the queue and leaves exactly one
    timer pending, a new one due 1500 ms later: the timer that was pending
    is gone.  In every run of the module a timer fires only when 1500 ms
    have gone by since the latest request was pushed, whatever the time of
    the earlier ones. *)
Theorem debounce_restart evs st0 st r :
  loaded st0 →
  run evs st0 = Some st →
  validationRequests (enqueue r st) = validationRequests st ++ [r]
  ∧ timeout (enqueue r st) = Some (next_timer st)
  ∧ timers (enqueue r st) = {[ next_timer st := now st + 1500 ]}
  ∧ (∀ h, timeout st = Some h → timers (enqueue r st) !! h = None)
  ∧ (∀ h st', host_step (Fire h) st = Some st' →
       ∃ t, last_push evs st0 None = Some t ∧ t + 1500 ≤ now st).
Proof.
  intros Hload Hrun.
  destruct (run_timers evs st0 st None Hrun (loaded_timers st0 Hload)) as [Hone Hdue].
  assert (Hh : handle_issued st).
  { apply (run_handle evs st0); [done|].
    intros h. destruct Hload as (_ & -> & _). done. }
  repeat split.
  - apply enqueue_queue.
  - apply enqueue_timeout.
  - by apply enqueue_restarts.
  - intros h Ht. rewrite enqueue_restarts by done.
    apply lookup_singleton_ne. specialize (Hh h Ht). lia.
  - intros h st' Hfire. apply host_step_sched in Hfire.
    destruct Hfire as ((due & Hdue' & Hle) & _).
    destruct (Hdue h due Hdue') as (t & Ht & ->). eauto.
Qed.

Lemma debounce_restart_witness :
  let st0 := sample sample_url None [] in
  ∃ st,
    run [Call 1 3 VUndefined; Tick 1000] st0 = Some st
    ∧ validationRequests (enqueue (req 2 4) st) = validationRequests st ++ [req 2 4]
    ∧ timeout (enqueue (req 2 4) st) = Some (next_timer st)
    ∧ timers (enqueue (req 2 4) st) = {[ next_timer st := now st + 1500 ]}
    ∧ (∀ h, timeout st = Some h → timers (enqueue (req 2 4) st) !! h = None)
    ∧ (∀ h st', host_step (Fire h) st = Some st' →
         ∃ t, last_push [Call 1 3 VUndefined; Tick 1000] st0 None = Some t
              ∧ t + 1500 ≤ now st).
Proof.
  intros st0. eexists. split; [reflexivity|].
  apply (debounce_restart [Call 1 3 VUndefined; Tick 1000] st0 _ (req 2 4)).
  - repeat split.
  - reflexivity.
Defined.

(** The restart at work: a request at 0 ms and another at 1000 ms; at
    1500 ms no timer can fire, at 2500 ms the second one does, and the
    batch holds both requests. *)
Example debounce_from_last_enqueue :
  let st0 := sample sample_url None [] in
  let burst := [Call 1 3 VUndefined; Tick 1000; Call 2 4 VUndefined] in
  (∀ h, run (burst ++ [Tick 500; Fire h]) st0 = None)
  ∧ ∃ st, run (burst ++ [Tick 1500; Fire 2]) st0 = Some st
          ∧ (waiting <$> calls (trace st)) = [{| bproduct := 2%positive; callbacks := [3; 4] |}].
Proof.
  intros st0 burst. split.
  - intros h. cbn -[decide]. unfold enqueue, scheduleValidation; cbn.
    destruct (decide (h = 2%positive)) as [->|Hne].
    + reflexivity.
    + change (Pos.succ 1) with 2%positive.
      rewrite delete_insert_eq, delete_empty, lookup_insert_ne by done.
      by rewrite lookup_empty.
  - eexists. split; [vm_compute; reflexivity|]. reflexivity.
Qed.

(** C4. [runValidation] resets the timer handle and swaps the queue for an
    empty one, and only then merges and dispatches what it captured; the
    reset holds even when the merge throws.  A request that arrives while
    the captured batch is dispatched changes nothing in that dispatch, and
    one that arrives after the timer fired is alone in the new queue, with
    a new timer of its own and the calls in flight untouched.  Along every
    run the requests pushed are, in order, those captured by the firing
    timers followed by those still queued: none is dropped from the queue
    and none is captured twice. *)
Theorem atomic_drain evs st0 st :
  loaded st0 →
  run evs st0 = Some st →
  runValidation st
  = dispatchAll (validationRequests st) (with_queue [] (with_timeout None st))
  ∧ timeout (state_of (runValidation st)) = None
  ∧ validationRequests (state_of (runValidation st)) = []
  ∧ (∀ r requests st1,
       dispatchAll requests (enqueue r st1)
       = outcome_map (enqueue r) (dispatchAll requests st1))
  ∧ (∀ h st' r,
       host_step (Fire h) st = Some st' →
       captures (Fire h) st = validationRequests st
       ∧ validationRequests (enqueue r st') = [r]
       ∧ timeout (enqueue r st') = Some (next_timer st')
       ∧ timers (enqueue r st') = {[ next_timer st' := now st' + 1500 ]}
       ∧ calls (trace (enqueue r st')) = calls (trace st'))
  ∧ pushed evs st0 = captured evs st0 ++ validationRequests st.
Proof.
  intros Hload Hrun.
  pose proof (runValidation_sched st) as [= Hq Ht _ _ _].
  split; [done|]. split; [done|]. split; [done|].
  split; [intros r requests st1; apply dispatchAll_enqueue|].
  split.
  - intros h st' r Hfire.
    assert (Hone : one_timer st').
    { destruct (host_step_timers (Fire h) st st'
                  (last_push evs st0 None) Hfire) as [Hone _]; [|done].
      apply (run_timers evs st0); [done|]. by apply loaded_timers. }
    apply host_step_sched in Hfire. destruct Hfire as (_ & [= Hq' _ _ _ _] & _).
    split; [done|].
    split; [by rewrite enqueue_queue, Hq'|].
    split; [apply enqueue_timeout|].
    split; [by apply enqueue_restarts|].
    by rewrite enqueue_trace.
  - pose proof (run_queue evs st0 st Hrun) as E.
    destruct Hload as (Hq0 & _). by rewrite Hq0 in E.
Qed.

Lemma atomic_drain_witness :
  let st0 := sample sample_url None [] in
  let evs := [Call 1 3 VUndefined; Call 2 4 VUndefined; Tick 1500; Fire 2;
              Call 3 5 VUndefined] in
  ∃ st,
    run evs st0 = Some st
    ∧ pushed evs st0 = [req 1 3; req 2 4; req 3 5]
    ∧ captured evs st0 = [req 1 3; req 2 4]
    ∧ validationRequests st = [req 3 5]
    ∧ pushed evs st0 = captured evs st0 ++ validationRequests st.
Proof.
  intros st0 evs. eexists. split; [vm_compute; reflexivity|].
  split; [vm_compute; reflexivity|].
  split; [vm_compute; reflexivity|].
  split; [reflexivity|].
  refine (proj2 (proj2 (proj2 (proj2 (proj2 (atomic_drain evs st0 _ _ _)))))).
  - repeat split.
  - vm_compute; reflexivity.
Defined.

(** ** Normalizing [applicationUsername] *)

Section normalization.
Implicit Types (h : heap) (p a : loc) (o : gmap string value) (v : value).

Lemma normalized_ok o v : username_ok (normalized o v).
Proof.
  unfold normalized, username_ok, get.
  destruct (o !! "applicationUsername") as [u|] eqn:E; simpl.
  - destruct (truthy u) eqn:Hu; [eauto|].
    destruct (truthy v) eqn:Hv.
    + right. exists v. by rewrite lookup_insert_eq.
    + left. apply lookup_delete_eq.
  - destruct (truthy v) eqn:Hv.
    + right. exists v. by rewrite lookup_insert_eq.
    + left. apply lookup_delete_eq.
Qed.

Lemma object_at_set a a' o h :
  object_at (set_object a o h) a' = if decide (a = a') then o else object_at h a'.
Proof.
  unfold object_at, set_object; simpl. case_decide as E.
  - subst. by rewrite lookup_insert_eq.
  - by rewrite lookup_insert_ne.
Qed.

Lemma new_object_fresh h : objects h !! new_object h = None.
Proof. unfold new_object. apply not_elem_of_dom, is_fresh. Qed.

(** The object the product ends up with, and the store right after the
    first statement. *)
Lemma ensure_additionalData_spec p h :
  let x := product_at h p in
  let '(a, h1) := ensure_additionalData p h in
  product_at h1 p = {| id := id x; additionalData := Some a; fields := fields x |}
  ∧ match additionalData x with
    | Some a0 => a = a0 ∧ h1 = h
    | None =>
        objects h !! a = None
        ∧ object_at h1 a = ∅
        ∧ products h1 = <[p := {| id := id x; additionalData := Some a;
                                  fields := fields x |}]> (products h)
        ∧ objects h1 = <[a := ∅]> (objects h)
    end.
Proof.
  unfold ensure_additionalData. cbn zeta.
  destruct (additionalData (product_at h p)) as [a0|] eqn:E.
  - split; [|done]. destruct (product_at h p). simpl in E. by subst.
  - split.
    + unfold product_at, set_product; simpl. by rewrite lookup_insert_eq.
    + split; [apply new_object_fresh|]. split; [|done].
      unfold product_at, set_product, object_at; simpl. by rewrite lookup_insert_eq.
Qed.

(** The last two statements touch the object [a] only, and leave it
    normalized. *)
Lemma normalize_spec getUser p h :
  let '(a, h1) := ensure_additionalData p h in
  let h' := normalize getUser p h in
  products h' = products h1
  ∧ object_at h' a = normalized (object_at h1 a) (getUser h1 p)
  ∧ ∀ a', a' ≠ a → objects h' !! a' = objects h1 !! a'.
Proof.
  unfold normalize. destruct (ensure_additionalData p h) as [a h1]. cbn zeta.
  unfold normalized.
  destruct (truthy (get (object_at h1 a) "applicationUsername")) eqn:Hu.
  - rewrite Hu. done.
  - assert (E : truthy (get (object_at
                 (set_object a (<["applicationUsername" := getUser h1 p]>
                                  (object_at h1 a)) h1) a) "applicationUsername")
                = truthy (getUser h1 p)).
    { rewrite object_at_set, decide_True by done.
      unfold get. by rewrite lookup_insert_eq. }
    rewrite E. destruct (truthy (getUser h1 p)) eqn:Hv.
    + split; [done|]. split.
      * by rewrite object_at_set, decide_True.
      * intros a' Hne. unfold set_object; simpl. by rewrite lookup_insert_ne.
    + split; [done|]. split.
      * rewrite !object_at_set, !decide_True by done. apply delete_insert_eq.
      * intros a' Hne. unfold set_object; simpl. by rewrite !lookup_insert_ne.
Qed.
End normalization.

(** ** One validation request for each product *)

Section dispatch.
Implicit Types (st : state) (b : batch) (bs : list batch) (h : heap).

Lemma post_spec b st :
  let p := bproduct b in
  let h := store_heap st in
  let x := product_at h p in
  let h' := store_heap (post b st) in
  trace (post b st) = trace st ++ [Ajax (call_of b st)]
  ∧ ∃ a,
      match additionalData x with
      | Some a0 => a = a0 ∧ products h' = products h
      | None => objects h !! a = None
      end
      ∧ product_at h' p
        = {| id := id x; additionalData := Some a; fields := fields x |}
      ∧ object_at h' a = normalized (additionalData_before h p) (resolved st p)
      ∧ (∀ p', p' ≠ p → products h' !! p' = products h !! p')
      ∧ (∀ a', a' ≠ a → objects h' !! a' = objects h !! a').
Proof.
  intros p h x h'.
  pose proof (ensure_additionalData_spec p h) as He.
  pose proof (normalize_spec (getApplicationUsername st) p h) as Hn.
  unfold resolved, additionalData_before. fold h. fold x.
  destruct (ensure_additionalData p h) as [a h1] eqn:Eens.
  cbn zeta in He, Hn. fold x in He.
  destruct He as (Hx1 & Hcase). destruct Hn as (Hprod & Hobj & Hother).
  change (normalize (getApplicationUsername st) p h) with h' in Hprod, Hobj, Hother.
  assert (Hx' : product_at h' p
                = {| id := id x; additionalData := Some a; fields := fields x |}).
  { unfold product_at in *. by rewrite Hprod. }
  assert (Hbefore : object_at h1 a
                    = match additionalData x with
                      | Some a0 => object_at h a0
                      | None => ∅
                      end).
  { destruct (additionalData x) as [a0|].
    - by destruct Hcase as [-> ->].
    - by destruct Hcase as (_ & -> & _). }
  split.
  - assert (Hser : serialize h' p = body (call_of b st)).
    { unfold serialize. rewrite Hx'. simpl. rewrite Hobj, Hbefore.
      unfold additionalData_before, resolved. fold p h x. by rewrite Eens. }
    change (trace (post b st))
      with (trace st ++ [Ajax {| url := validator st; method := "POST"; data := p;
                                 body := serialize h' p; waiting := b |}]).
    by rewrite Hser.
  - exists a. cbn [snd]. rewrite <-Hbefore.
    split; [|split; [done|split; [done|split]]].
    + destruct (additionalData x) as [a0|].
      * destruct Hcase as [-> ->]. done.
      * by destruct Hcase as (? & _).
    + intros p' Hne. rewrite Hprod.
      destruct (additionalData x) as [a0|].
      * by destruct Hcase as [_ ->].
      * destruct Hcase as (_ & _ & -> & _). by rewrite lookup_insert_ne.
    + intros a' Hne. rewrite Hother by done.
      destruct (additionalData x) as [a0|].
      * by destruct Hcase as [_ ->].
      * destruct Hcase as (_ & _ & _ & ->). by rewrite lookup_insert_ne.
Qed.

Lemma posts_trace bs st :
  trace (foldl (λ s b, post b s) st bs) = trace st ++ (Ajax <$> calls_of bs st).
Proof.
  revert st. induction bs as [|b bs IH]; intros st; simpl.
  - by rewrite app_nil_r.
  - rewrite IH. destruct (post_spec b st) as [-> _]. by rewrite <-app_assoc.
Qed.

Lemma calls_of_waiting bs st : waiting <$> calls_of bs st = bs.
Proof.
  revert st. induction bs as [|b bs IH]; intros st; simpl; [done | by rewrite IH].
Qed.

Lemma calls_of_Forall (P : ajax_options → Prop) bs st :
  (∀ b st, b ∈ bs → P (call_of b st)) → Forall P (calls_of bs st).
Proof.
  revert st. induction bs as [|b bs IH]; intros st HP; simpl; [done|].
  constructor.
  - apply HP. by left.
  - apply IH. intros b' st' Hb'. apply HP. by right.
Qed.

(** The second loop finds a batch under every key it is given. *)
Lemma dispatch_total (byProduct : list (string * batch)) ks st :
  (∀ k, k ∈ ks → is_Some (assoc k byProduct)) →
  forEach ks (post_key byProduct) st
  = Returned (foldl (λ s b, post b s) st (omap (λ k, assoc k byProduct) ks)).
Proof.
  revert st. induction ks as [|k ks IH]; intros st Hks; simpl; [done|].
  destruct (Hks k) as [b Hb]; [by left|].
  unfold post_key at 1, read. rewrite Hb. simpl.
  apply IH. intros k' Hk'. apply Hks. by right.
Qed.
End dispatch.

(** ** Merging the requests by product *)

Section grouping.
Variable h : heap.
Implicit Types (r : request) (rs : list request) (k : string)
  (acc : list (string * batch)).

Lemma assoc_None {A} k (l : list (string * A)) : assoc k l = None ↔ k ∉ l.*1.
Proof.
  induction l as [|[k' a] l IH]; csimpl.
  - split; [intros _; apply not_elem_of_nil | done].
  - rewrite not_elem_of_cons. case_decide; [|tauto].
    split; [done | intros []; done].
Qed.

Lemma assoc_Some_key {A} k (l : list (string * A)) a : assoc k l = Some a → k ∈ l.*1.
Proof.
  intros E. destruct (decide (k ∈ l.*1)) as [|Hn]; [done|].
  apply assoc_None in Hn. congruence.
Qed.

Lemma assoc_app {A} k (l1 l2 : list (string * A)) :
  assoc k (l1 ++ l2)
  = match assoc k l1 with Some a => Some a | None => assoc k l2 end.
Proof.
  induction l1 as [|[k' a] l1 IH]; simpl; [done|]. by case_decide.
Qed.

Lemma update_keys k f acc : (update k f acc).*1 = acc.*1.
Proof.
  induction acc as [|[k' b] acc IH]; csimpl; [done|].
  case_decide; csimpl; [done | by rewrite IH].
Qed.

Lemma assoc_update k k' f acc :
  assoc k' (update k f acc)
  = if decide (k' = k) then f <$> assoc k acc else assoc k' acc.
Proof.
  induction acc as [|[k0 b] acc IH]; simpl.
  - by case_decide.
  - destruct (decide (k = k0)) as [->|Hne]; simpl.
    + by destruct (decide (k' = k0)).
    + rewrite IH. destruct (decide (k' = k0)) as [->|Hne'].
      * by rewrite decide_False.
      * done.
Qed.

Lemma grouped_nil : grouped h [] [].
Proof. split; [constructor | done | done]. Qed.

Lemma carrying_snoc k rs r :
  carrying h k (rs ++ [r])
  = if decide (idof h r = k) then carrying h k rs ++ [r] else carrying h k rs.
Proof.
  unfold carrying. rewrite filter_app. case_decide.
  - by rewrite filter_cons_True.
  - by rewrite filter_cons_False, app_nil_r.
Qed.

Lemma carrying_none k rs : k ∉ idof h <$> rs → carrying h k rs = [].
Proof.
  intros Hk. destruct (carrying h k rs) as [|r l] eqn:E; [done|].
  assert (Hr : r ∈ carrying h k rs) by (rewrite E; left).
  apply list_elem_of_filter in Hr as [<- Hr]. destruct Hk.
  by apply list_elem_of_fmap_2.
Qed.

Lemma merge_request_grouped rs acc r :
  grouped h rs acc →
  inherited (idof h r) = false →
  ∃ acc', merge_request h r acc = Returned acc' ∧ grouped h (rs ++ [r]) acc'.
Proof.
  intros [Hnd Hkeys Hbatch] Hinh. unfold merge_request, read. fold (idof h r).
  rewrite Hinh. destruct (assoc (idof h r) acc) as [b0|] eqn:E.
  - eexists. split; [done|]. split.
    + by rewrite update_keys.
    + intros k. rewrite update_keys, fmap_app, elem_of_app, <-Hkeys.
      simpl. rewrite list_elem_of_singleton. split; [tauto|].
      intros [?| ->]; [done|]. by apply assoc_Some_key in E.
    + intros k b. rewrite assoc_update, carrying_snoc.
      destruct (decide (k = idof h r)) as [->|Hne].
      * rewrite E, decide_True by done. intros [= <-]. simpl.
        destruct (Hbatch _ _ E) as [-> _].
        rewrite !fmap_app. split; [done|]. apply last_snoc.
      * rewrite decide_False by done. apply Hbatch.
  - eexists. split; [done|]. apply assoc_None in E. split.
    + rewrite fmap_app. apply NoDup_app. split; [done|].
      split; [|apply NoDup_singleton].
      intros k Hk. simpl. rewrite list_elem_of_singleton. by intros ->.
    + intros k. rewrite !fmap_app, !elem_of_app, <-Hkeys. simpl.
      by rewrite !list_elem_of_singleton.
    + intros k b. rewrite assoc_app, carrying_snoc.
      destruct (assoc k acc) as [b'|] eqn:E'.
      * intros [= <-]. rewrite decide_False; [by apply Hbatch|].
        intros Hk. apply assoc_Some_key in E'. congruence.
      * simpl. case_decide as Hk; [|done]. symmetry in Hk.
        rewrite decide_True by done. intros [= <-]. simpl.
        rewrite carrying_none; [done|].
        rewrite <-Hkeys. by rewrite <-Hk.
Qed.

(** With no id among the inherited names, the loop runs to its end. *)
Lemma forEach_grouped rs done acc :
  grouped h done acc →
  Forall (λ r, inherited (idof h r) = false) rs →
  ∃ acc', forEach rs (merge_request h) acc = Returned acc'
          ∧ grouped h (done ++ rs) acc'.
Proof.
  revert done acc. induction rs as [|r rs IH]; intros done acc Hg Hrs; simpl.
  - exists acc. by rewrite app_nil_r.
  - inversion_clear Hrs as [|? ? Hr Hrs'].
    destruct (merge_request_grouped done acc r Hg Hr) as (acc1 & -> & Hg1).
    destruct (IH (done ++ [r]) acc1 Hg1 Hrs') as (acc' & -> & Hg').
    exists acc'. by rewrite <-app_assoc in Hg'.
Qed.

(** With one, it throws there: no own key is ever an inherited name,
    so the inherited value is what the lookup finds. *)
Lemma forEach_inherited rs acc :
  Forall (λ k, inherited k = false) acc.*1 →
  Exists (λ r, inherited (idof h r) = true) rs →
  ∃ e acc', forEach rs (merge_request h) acc = Threw e acc'.
Proof.
  revert acc. induction rs as [|r rs IH]; intros acc Hacc Hrs.
  - by apply Exists_nil in Hrs.
  - simpl. unfold merge_request at 1, read. fold (idof h r).
    destruct (assoc (idof h r) acc) as [b0|] eqn:E.
    + apply IH.
      * by rewrite update_keys.
      * apply Exists_cons in Hrs as [Hr|]; [|done].
        apply assoc_Some_key in E.
        rewrite Forall_forall in Hacc. specialize (Hacc _ E). congruence.
    + destruct (inherited (idof h r)) eqn:Hinh; [eauto|].
      apply IH.
      * rewrite fmap_app. apply Forall_app. split; [done|].
        by constructor.
      * apply Exists_cons in Hrs as [Hr|]; [congruence | done].
Qed.
End grouping.

(** ** A firing of the timer, end to end *)

Section firing.
Implicit Types (st : state) (h : heap) (byProduct : list (string * batch)).

Lemma Object_keys_Permutation byProduct : Object_keys byProduct ≡ₚ byProduct.*1.
Proof.
  unfold Object_keys. generalize (byProduct.*1). intros ks.
  rewrite merge_sort_Permutation.
  assert (E : (omap (λ k, (λ n, (n, k)) <$> array_index k) ks).*2
              = filter (λ k, ¬ array_index k = None) ks).
  { induction ks as [|k ks IH]; [done|]. csimpl.
    destruct (array_index k) as [n|] eqn:Hk; csimpl.
    - rewrite filter_cons_True by (rewrite Hk; done). by rewrite IH.
    - rewrite filter_cons_False by (rewrite Hk; tauto). done. }
  rewrite E, Permutation_app_comm. apply filter_app_complement.
Qed.

(** The product ids do not change while the batches are posted. *)
Lemma post_id b st p :
  id (product_at (store_heap (post b st)) p) = id (product_at (store_heap st) p).
Proof.
  destruct (post_spec b st) as (_ & a & _ & Hx & _ & Hp & _).
  destruct (decide (p = bproduct b)) as [->|Hne].
  - by rewrite Hx.
  - unfold product_at. by rewrite Hp.
Qed.

Lemma calls_of_products bs st :
  Forall (λ c, data c = bproduct (waiting c)
               ∧ payload_id (body c)
                 = id (product_at (store_heap st) (bproduct (waiting c))))
    (calls_of bs st).
Proof.
  revert st. induction bs as [|b bs IH]; intros st; simpl; [done|].
  constructor; [done|].
  eapply Forall_impl; [apply IH|]. intros c [? ->]. split; [done|].
  apply post_id.
Qed.

(** Under each key sits a batch whose product has that id. *)
Lemma grouped_id h rs byProduct k b :
  grouped h rs byProduct → assoc k byProduct = Some b →
  id (product_at h (bproduct b)) = k ∧ bproduct b ∈ product <$> carrying h k rs.
Proof.
  intros Hg Hb. destruct (grouped_batch _ _ _ Hg k b Hb) as [_ Hlast].
  apply last_Some in Hlast as [l Hl].
  assert (Hin : bproduct b ∈ product <$> carrying h k rs).
  { rewrite Hl. apply elem_of_app. right. by left. }
  split; [|done].
  apply list_elem_of_fmap in Hin as (r & -> & Hr).
  by apply list_elem_of_filter in Hr as [? _].
Qed.

Lemma batches_keys h rs byProduct :
  grouped h rs byProduct →
  (λ b, id (product_at h (bproduct b))) <$> batches byProduct
  = Object_keys byProduct
  ∧ Forall (λ b, ∃ k, assoc k byProduct = Some b) (batches byProduct).
Proof.
  intros Hg. unfold batches.
  assert (Hks : ∀ k, k ∈ Object_keys byProduct → k ∈ byProduct.*1).
  { intros k. by rewrite Object_keys_Permutation. }
  induction (Object_keys byProduct) as [|k ks IH]; [done|]. csimpl.
  destruct (assoc k byProduct) as [b|] eqn:Hb.
  - destruct IH as [IH1 IH2]; [intros k' Hk'; apply Hks; by right|].
    csimpl. rewrite IH1. destruct (grouped_id h rs byProduct k b Hg Hb) as [-> _].
    split; [done|]. constructor; eauto.
  - apply assoc_None in Hb. destruct Hb. apply Hks. by left.
Qed.

(** The outcome of [runValidation] when no request carries an
    inherited name. *)
Lemma runValidation_returns st :
  let h := store_heap st in
  let rs := validationRequests st in
  let st0 := with_queue [] (with_timeout None st) in
  Forall (λ r, inherited (idof h r) = false) rs →
  ∃ byProduct,
    grouped h rs byProduct
    ∧ runValidation st
      = Returned (foldl (λ s b, post b s) st0 (batches byProduct)).
Proof.
  intros h rs st0 Hrs.
  destruct (forEach_grouped h rs [] [] (grouped_nil h) Hrs) as (byProduct & E & Hg).
  exists byProduct. split; [done|].
  unfold runValidation, dispatchAll. cbn zeta.
  change (validationRequests (with_timeout None st)) with rs.
  change (store_heap (with_queue [] (with_timeout None st))) with h.
  rewrite E. apply dispatch_total.
  intros k Hk. rewrite Object_keys_Permutation in Hk.
  destruct (assoc k byProduct) eqn:Hb; [done|].
  by apply assoc_None in Hb.
Qed.

(** And when one does: the exception leaves the queue emptied, the
    timer handle reset, and nothing posted. *)
Lemma runValidation_throws st :
  Exists (λ r, inherited (idof (store_heap st) r) = true) (validationRequests st) →
  ∃ e, runValidation st = Threw e (with_queue [] (with_timeout None st)).
Proof.
  intros Hrs. unfold runValidation, dispatchAll. cbn zeta.
  destruct (forEach_inherited (store_heap st) (validationRequests st) [])
    as (e & acc & E); [done | done |].
  change (validationRequests (with_timeout None st)) with (validationRequests st).
  change (store_heap (with_queue [] (with_timeout None st))) with (store_heap st).
  rewrite E. eauto.
Qed.
End firing.

(** ** Coalescing *)

Section coalescing.
Implicit Types (st : state) (h : heap).

Lemma inherited_dec h (rs : list request) :
  Forall (λ r, inherited (idof h r) = false) rs
  ∨ Exists (λ r, inherited (idof h r) = true) rs.
Proof.
  destruct (Forall_Exists_dec (λ r, inherited (idof h r) = false)
              (λ r, inherited (idof h r) = true)
              (λ r, match inherited (idof h r) as i
                      return {i = false} + {i = true}
                    with true => right eq_refl | false => left eq_refl end) rs);
    eauto.
Qed.

(** Whatever the requests, a firing posts the calls of some batches,
    each for a product that one of the captured requests carried. *)
Lemma runValidation_posts st :
  ∃ bs,
    state_of (runValidation st) = foldl (λ s b, post b s) (captured_state st) bs
    ∧ Forall (λ b, bproduct b ∈ product <$> validationRequests st) bs.
Proof.
  destruct (inherited_dec (store_heap st) (validationRequests st)) as [Hok|Hbad].
  - destruct (runValidation_returns st Hok) as (byProduct & Hg & E).
    exists (batches byProduct). rewrite E. split; [done|].
    destruct (batches_keys _ _ _ Hg) as [_ Hbs].
    eapply Forall_impl; [exact Hbs|]. intros b [k Hb].
    destruct (grouped_id _ _ _ k b Hg Hb) as [_ Hin].
    apply list_elem_of_fmap in Hin as (r & -> & Hr).
    apply list_elem_of_fmap_2. by apply list_elem_of_filter in Hr as [_ ?].
  - destruct (runValidation_throws st Hbad) as [e E].
    exists []. by rewrite E.
Qed.

(** One call for each distinct product id, carrying the callbacks of
    the requests with that id and the product of the last of them. *)
Lemma one_call_per_product st :
  let h := store_heap st in
  let rs := validationRequests st in
  Forall (λ r, inherited (idof h r) = false) rs →
  ∃ cs,
    runValidation st
    = Returned (foldl (λ s b, post b s) (captured_state st) (waiting <$> cs))
    ∧ cs = calls_of (waiting <$> cs) (captured_state st)
    ∧ trace (state_of (runValidation st)) = trace st ++ (Ajax <$> cs)
    ∧ length cs = length (remove_dups (idof h <$> rs))
    ∧ NoDup ((λ c, payload_id (body c)) <$> cs)
    ∧ (∀ k, k ∈ (λ c, payload_id (body c)) <$> cs ↔ k ∈ idof h <$> rs)
    ∧ Forall (λ c,
        callbacks (waiting c) = callback <$> carrying h (payload_id (body c)) rs
        ∧ last (product <$> carrying h (payload_id (body c)) rs) = Some (data c))
        cs.
Proof.
  intros h rs Hok.
  destruct (runValidation_returns st Hok) as (byProduct & Hg & E).
  fold h rs in Hg. fold (captured_state st) in E.
  set (cs := calls_of (batches byProduct) (captured_state st)).
  assert (Hw : waiting <$> cs = batches byProduct) by apply calls_of_waiting.
  destruct (batches_keys h rs byProduct Hg) as [Hids Hbs].
  pose proof (calls_of_products (batches byProduct) (captured_state st)) as Hcs.
  fold cs in Hcs. change (store_heap (captured_state st)) with h in Hcs.
  assert (Hkeys : (λ c, payload_id (body c)) <$> cs = Object_keys byProduct).
  { rewrite <-Hids, <-Hw, <-list_fmap_compose. apply Forall_fmap_ext_1.
    eapply Forall_impl; [exact Hcs|]. by intros c [_ ->]. }
  exists cs. rewrite Hw. split; [done|]. split; [done|]. split.
  { rewrite E. cbn [state_of]. by rewrite posts_trace. }
  split.
  { transitivity (length (Object_keys byProduct)).
    - by rewrite <-Hkeys, length_fmap.
    - apply Permutation_length. rewrite Object_keys_Permutation.
      apply NoDup_Permutation.
      + apply Hg.
      + apply NoDup_remove_dups.
      + intros k. rewrite elem_of_remove_dups. apply Hg. }
  rewrite Hkeys. split.
  { rewrite Object_keys_Permutation. apply Hg. }
  split.
  { intros k. rewrite Object_keys_Permutation. apply Hg. }
  apply Forall_forall. intros c Hc.
  rewrite Forall_forall in Hcs. destruct (Hcs c Hc) as [Hd Hid].
  assert (Hb : waiting c ∈ batches byProduct).
  { rewrite <-Hw. by apply list_elem_of_fmap_2. }
  rewrite Forall_forall in Hbs. destruct (Hbs _ Hb) as [k Hk].
  destruct (grouped_id h rs byProduct k _ Hg Hk) as [Hidk _].
  rewrite Hid, Hidk, Hd. by apply (grouped_batch h rs byProduct Hg).
Qed.


End coalescing.

(** ** Claims on the dispatch *)

Section settled.
Implicit Types (st : state) (h : heap) (p : loc).

Lemma post_settles b st : settled (store_heap (post b st)) (bproduct b).
Proof.
  destruct (post_spec b st) as (_ & a & _ & Hx & Ho & _).
  exists a. rewrite Hx, Ho. split; [done | apply normalized_ok].
Qed.

Lemma post_settled b st p :
  settled (store_heap st) p → settled (store_heap (post b st)) p.
Proof.
  intros (a & Ha & Hok).
  destruct (post_spec b st) as (_ & ab & Hcase & Hx & Ho & Hp & Hobj).
  assert (Hkeep : additionalData (product_at (store_heap (post b st)) p) = Some a).
  { destruct (decide (p = bproduct b)) as [->|Hne].
    - rewrite Hx. simpl. rewrite Ha in Hcase. by destruct Hcase as [-> _].
    - unfold product_at in *. by rewrite Hp. }
  exists a. split; [done|].
  destruct (decide (a = ab)) as [->|Hne].
  - rewrite Ho. apply normalized_ok.
  - unfold object_at in *. by rewrite Hobj.
Qed.

Lemma posts_settled bs st p :
  settled (store_heap st) p →
  settled (store_heap (foldl (λ s b, post b s) st bs)) p.
Proof.
  revert st. induction bs as [|b bs IH]; intros st Hp; simpl; [done|].
  by apply IH, post_settled.
Qed.

Lemma calls_of_settled bs st :
  Forall (λ c, settled (store_heap (foldl (λ s b, post b s) st bs)) (data c))
    (calls_of bs st).
Proof.
  revert st. induction bs as [|b bs IH]; intros st; simpl; [done|].
  constructor; [|apply IH].
  apply posts_settled, post_settles.
Qed.

Lemma calls_of_data bs st : data <$> calls_of bs st = bproduct <$> bs.
Proof.
  revert st. induction bs as [|b bs IH]; intros st; simpl; [done | by rewrite IH].
Qed.
End settled.

(** C6. The call made for a batch carries the product's
    [additionalData] object, the empty one if the product had none, with
    [applicationUsername] settled as follows: a truthy value stays; over a
    missing or falsy one the resolver's answer is written when it is
    truthy, and the key is deleted when it is not.  So in every call a
    firing makes, [additionalData] is present and its
    [applicationUsername] is absent or truthy. *)
Theorem applicationUsername_sent st :
  (∀ b st1,
     let p := bproduct b in
     let before := additionalData_before (store_heap st1) p in
     let answer := resolved st1 p in
     ∃ c sent,
       trace (post b st1) = trace st1 ++ [Ajax c]
       ∧ payload_additionalData (body c) = Some sent
       ∧ (additionalData (product_at (store_heap st1) p) = None → before = ∅)
       ∧ (truthy (get before "applicationUsername") = true → sent = before)
       ∧ (truthy (get before "applicationUsername") = false →
          truthy answer = true →
          sent = <["applicationUsername" := answer]> before)
       ∧ (truthy (get before "applicationUsername") = false →
          truthy answer = false →
          sent = delete "applicationUsername" before))
  ∧ ∃ cs,
      trace (state_of (runValidation st)) = trace st ++ (Ajax <$> cs)
      ∧ Forall (λ c, ∃ sent, payload_additionalData (body c) = Some sent
                              ∧ username_ok sent) cs.
Proof.
  split.
  - intros b st1 p before answer.
    destruct (post_spec b st1) as (Htrace & _).
    exists (call_of b st1), (normalized before answer).
    split; [done|]. split; [done|]. split.
    { intros Hnone. unfold before, additionalData_before. by rewrite Hnone. }
    unfold normalized.
    split; [by intros ->|]. split; intros -> ->; done.
  - destruct (runValidation_posts st) as (bs & E & _).
    exists (calls_of bs (captured_state st)). split.
    + by rewrite E, posts_trace.
    + apply calls_of_Forall. intros b st1 _.
      eexists. split; [done|]. apply normalized_ok.
Qed.

Lemma applicationUsername_sent_witness :
  let st := sample sample_url None [] in
  let b := {| bproduct := 3%positive; callbacks := [7] |} in
  ∃ c sent,
    trace (post b st) = [Ajax c]
    ∧ payload_additionalData (body c) = Some sent
    ∧ sent = {[ "applicationUsername" := VStr "alice" ]}.
Proof.
  intros st b.
  destruct (proj1 (applicationUsername_sent st) b st)
    as (c & sent & Htrace & Hsent & _ & _ & Hset & _).
  exists c, sent. split; [exact Htrace|]. split; [exact Hsent|].
  rewrite (Hset eq_refl eq_refl). vm_compute. reflexivity.
Defined.

(** C10. The normalization works on the caller's own objects.  Once the
    batch is posted the product at the same reference carries an
    [additionalData] object: the one it had, now normalized where it
    stands, or else a new one that no reference led to before; no other
    product and no other object is touched.  After a firing, every
    product sent is one a captured request referred to, and through that
    reference its [additionalData] is seen present, with
    [applicationUsername] absent or truthy. *)
Theorem normalization_in_place st :
  (∀ b st1,
     let p := bproduct b in
     let h := store_heap st1 in
     let h' := store_heap (post b st1) in
     let x := product_at h p in
     ∃ a,
       product_at h' p
       = {| id := id x; additionalData := Some a; fields := fields x |}
       ∧ object_at h' a = normalized (additionalData_before h p) (resolved st1 p)
       ∧ (∀ a0, additionalData x = Some a0 → a = a0 ∧ products h' = products h)
       ∧ (additionalData x = None → objects h !! a = None)
       ∧ (∀ p', p' ≠ p → products h' !! p' = products h !! p')
       ∧ (∀ a', a' ≠ a → objects h' !! a' = objects h !! a'))
  ∧ ∃ cs,
      trace (state_of (runValidation st)) = trace st ++ (Ajax <$> cs)
      ∧ Forall (λ c, data c ∈ product <$> validationRequests st
                     ∧ settled (store_heap (state_of (runValidation st))) (data c))
          cs.
Proof.
  split.
  - intros b st1 p h h' x.
    destruct (post_spec b st1) as (_ & a & Hcase & Hx & Ho & Hp & Hobj).
    exists a. fold p h h' x in Hcase, Hx, Ho, Hp, Hobj.
    split; [done|]. split; [done|]. split; [|split; [|done]].
    + intros a0 Ha0. by rewrite Ha0 in Hcase.
    + intros Hnone. by rewrite Hnone in Hcase.
  - destruct (runValidation_posts st) as (bs & E & Hbs).
    exists (calls_of bs (captured_state st)). split.
    + by rewrite E, posts_trace.
    + rewrite E. apply Forall_and. split; [|apply calls_of_settled].
      assert (Hd : Forall (λ p, p ∈ product <$> validationRequests st)
                     (data <$> calls_of bs (captured_state st))).
      { rewrite calls_of_data. by apply Forall_fmap. }
      by apply Forall_fmap in Hd.
Qed.

Lemma normalization_in_place_witness :
  let st := sample sample_url None [] in
  let b := {| bproduct := 3%positive; callbacks := [7] |} in
  ∃ a,
    product_at (store_heap (post b st)) 3%positive
    = {| id := "b"; additionalData := Some a; fields := [] |}
    ∧ a = 1%positive
    ∧ products (store_heap (post b st)) = products (store_heap st).
Proof.
  intros st b.
  destruct (proj1 (normalization_in_place st) b st)
    as (a & Hx & _ & Hsame & _).
  exists a. split; [exact Hx|]. exact (Hsame 1%positive eq_refl).
Defined.

(** The two requests of the specification's example: products
    [{id: "a"}] and [{id: "a", price: "$1"}] within one window give one
    POST whose body is the second product, and a success response reaches
    both callbacks with the same arguments. *)
Example coalesced_burst :
  let st := sample sample_url None [req 1 1; req 2 2] in
  let response := JObject [("ok", JBool true);
                           ("data", JObject [("transaction", JObject [])])] in
  ∃ c st',
    runValidation st = Returned st'
    ∧ trace st' = [Ajax c]
    ∧ method c = "POST" ∧ url c = sample_url ∧ data c = 2%positive
    ∧ payload_id (body c) = "a"
    ∧ payload_fields (body c) = [("price", VStr "$1")]
    ∧ payload_additionalData (body c)
      = Some {[ "applicationUsername" := VStr "alice" ]}
    ∧ success c response st'
      = Returned (emit [Callback 1 VTrue (VData (JObject [("transaction", JObject [])]));
                        Callback 2 VTrue (VData (JObject [("transaction", JObject [])]))]
                    st').
Proof.
  intros st response. eexists _, _.
  split; [vm_compute; reflexivity|].
  split; [reflexivity|].
  repeat split; vm_compute; reflexivity.
Qed.

(** C1, at the input where the code departs from it: a burst for a
    product whose id is a name every object inherits, such as
    "constructor".  The first loop takes the inherited value for a batch
    already present and throws on its missing [callbacks]; the queue has
    been emptied by then, so no POST is made and no callback of the burst
    is ever called. *)
Theorem burst_for_inherited_id_throws st k r rs :
  validationRequests st = r :: rs →
  Forall (λ r, idof (store_heap st) r = k) (r :: rs) →
  inherited k = true →
  ∃ e,
    runValidation st = Threw e (captured_state st)
    ∧ trace (captured_state st) = trace st
    ∧ validationRequests (captured_state st) = [].
Proof.
  intros Hq Hk Hinh.
  destruct (runValidation_throws st) as [e E].
  - rewrite Hq. apply Exists_cons. left.
    apply Forall_cons in Hk as [-> _]. done.
  - exists e. done.
Qed.

Lemma burst_for_inherited_id_throws_witness :
  let st := sample sample_url None [req 4 1; req 4 2; req 4 3] in
  ∃ e,
    runValidation st = Threw e (captured_state st)
    ∧ trace (captured_state st) = []
    ∧ validationRequests (captured_state st) = [].
Proof.
  intros st.
  apply (burst_for_inherited_id_throws st "constructor" (req 4 1) [req 4 2; req 4 3]).
  - reflexivity.
  - repeat constructor.
  - reflexivity.
Defined.

(** C2, at the input where the code departs from it: as soon as one of
    the captured requests carries an inherited name as product id, the
    first loop throws and the whole batch goes with it: the requests for
    the other ids get no call either, and nobody's callback is called. *)
Theorem inherited_id_drops_batch st :
  Exists (λ r, inherited (idof (store_heap st) r) = true) (validationRequests st) →
  ∃ e st',
    runValidation st = Threw e st'
    ∧ calls (trace st') = calls (trace st)
    ∧ validationRequests st' = []
    ∧ timeout st' = None.
Proof.
  intros Hbad. destruct (runValidation_throws st Hbad) as [e E].
  exists e, (captured_state st). done.
Qed.

Lemma inherited_id_drops_batch_witness :
  let st := sample sample_url None [req 1 1; req 3 2; req 4 3] in
  length (remove_dups (idof (store_heap st) <$> validationRequests st)) = 3
  ∧ ∃ e st',
      runValidation st = Threw e st'
      ∧ calls (trace st') = []
      ∧ validationRequests st' = []
      ∧ timeout st' = None.
Proof.
  intros st. split; [vm_compute; reflexivity|].
  apply (inherited_id_drops_batch st).
  apply Exists_cons. right. apply Exists_cons. right. apply Exists_cons. left.
  reflexivity.
Defined.

(** * Further properties *)

(** ** The three routes of [store._validator] *)

Section routes.
Implicit Types (st : state) (product : loc) (callback : nat) (isPrepared : value).

Lemma invoked_app evs1 evs2 : invoked (evs1 ++ evs2) = invoked evs1 ++ invoked evs2.
Proof. apply omap_app. Qed.

Lemma delegated_app evs1 evs2 :
  delegated (evs1 ++ evs2) = delegated evs1 ++ delegated evs2.
Proof. apply omap_app. Qed.



End routes.







(** ** The queue and its timer, in every run *)

Section waiting.
Implicit Types (st : state) (ev : host_event) (evs : list host_event).

Lemma idle_or_waiting_sched st1 st2 :
  sched st1 = sched st2 → idle_or_waiting st1 → idle_or_waiting st2.
Proof.
  intros [= Hq Ht Hts _ _]. unfold idle_or_waiting. by rewrite Hq, Ht, Hts.
Qed.

Lemma idle_or_waiting_one_timer st : idle_or_waiting st → one_timer st.
Proof.
  intros [(_ & _ & Hts)|(_ & h & due & Ht & Hts)] h' due'; rewrite Hts.
  - by rewrite lookup_empty.
  - rewrite Ht. by intros [-> _]%lookup_singleton_Some.
Qed.

Lemma host_step_waiting ev st st' :
  host_step ev st = Some st' → idle_or_waiting st → idle_or_waiting st'.
Proof.
  intros Hstep Hinv. pose proof (idle_or_waiting_one_timer st Hinv) as Hone.
  apply host_step_sched in Hstep.
  destruct ev as [d|product callback isPrepared|h|n response|n status message|v|f];
    try (destruct Hstep as [Hs _]; by apply (idle_or_waiting_sched st)).
  - destruct Hstep as [[= Hq Ht Hts _ _] _].
    unfold idle_or_waiting. by rewrite Hq, Ht, Hts.
  - destruct Hstep as [[Hs _]|[Hs _]]; [by apply (idle_or_waiting_sched st)|].
    unfold sched in Hs.
    rewrite enqueue_queue, enqueue_timeout, enqueue_restarts in Hs by done.
    injection Hs as Hq Ht Hts _ _. right. rewrite Hq, Ht, Hts. split.
    + by destruct (validationRequests st).
    + eauto.
  - destruct Hstep as ((due & Hh & _) & [= Hq Ht Hts _ _] & _).
    left. rewrite Hq, Ht, Hts. split; [done|]. split; [done|].
    pose proof (one_timer_cleared st Hone) as E.
    by rewrite (Hone h due Hh) in E.
Qed.

Lemma run_waiting evs st st' :
  run evs st = Some st' → idle_or_waiting st → idle_or_waiting st'.
Proof.
  revert st. induction evs as [|ev evs IH]; intros st; simpl.
  - by intros [= <-].
  - destruct (host_step ev st) as [st1|] eqn:Hstep; [|done].
    intros Hrun Hinv. apply (IH st1); [done|]. by apply (host_step_waiting ev st).
Qed.

(** A due timer can run, and leaves the queue empty and no handle set. *)
Lemma fire_drains h st due :
  timers st !! h = Some due →
  due ≤ now st →
  ∃ st', host_step (Fire h) st = Some st'
         ∧ validationRequests st' = []
         ∧ timeout st' = None
         ∧ timers st' = delete h (timers st).
Proof.
  intros E Hle. unfold host_step. rewrite E, decide_True by done.
  eexists. split; [done|].
  by pose proof (runValidation_sched
                   (with_timers (delete h (timers st)) (next_timer st) st))
    as [= -> -> -> _ _].
Qed.
End waiting.

(** X4. In every run of the module a timer is pending exactly when the
    queue holds a request, and it is the one timer whose handle [timeout]
    holds; so [runValidation] is never run on an empty queue. *)
Theorem timer_pending_iff_queued evs st0 st :
  loaded st0 →
  run evs st0 = Some st →
  (validationRequests st = [] ↔ timeout st = None)
  ∧ (validationRequests st = [] ↔ timers st = ∅)
  ∧ ∀ h st', host_step (Fire h) st = Some st' →
      validationRequests st ≠ [] ∧ timeout st = Some h.
Proof.
  intros Hload Hrun.
  assert (Hinv : idle_or_waiting st).
  { apply (run_waiting evs st0); [done|]. by left. }
  split; [|split].
  - destruct Hinv as [(Hq & Ht & _)|(Hq & h & due & Ht & _)].
    + by rewrite Hq, Ht.
    + rewrite Ht. split; [done | discriminate].
  - destruct Hinv as [(Hq & _ & Hts)|(Hq & h & due & _ & Hts)].
    + by rewrite Hq, Hts.
    + rewrite Hts. split; [done|].
      intros E. apply (f_equal (λ m, m !! h)) in E.
      by rewrite lookup_singleton_eq, lookup_empty in E.
  - intros h st' Hfire. apply host_step_sched in Hfire.
    destruct Hfire as ((due & Hh & _) & _).
    destruct Hinv as [(_ & _ & Hts)|(Hq & h' & due' & Ht & Hts)].
    + by rewrite Hts, lookup_empty in Hh.
    + rewrite Hts in Hh. apply lookup_singleton_Some in Hh as [-> _]. done.
Qed.

Lemma timer_pending_iff_queued_witness :
  let st0 := sample sample_url None [] in
  ∃ st,
    run [Call 1 3 VUndefined; Tick 700; Call 2 4 VUndefined] st0 = Some st
    ∧ (validationRequests st = [] ↔ timeout st = None)
    ∧ (validationRequests st = [] ↔ timers st = ∅)
    ∧ ∀ h st', host_step (Fire h) st = Some st' →
        validationRequests st ≠ [] ∧ timeout st = Some h.
Proof.
  intros st0. eexists. split; [reflexivity|].
  apply (timer_pending_iff_queued
           [Call 1 3 VUndefined; Tick 700; Call 2 4 VUndefined] st0).
  - repeat split.
  - reflexivity.
Defined.

(** X5. After an enqueue the batch can fire from 1500 ms on and not
    before: with less than 1500 ms gone by no timer can run, and from
    1500 ms on the new timer can; when it runs it takes the whole queue,
    the request just queued last, and leaves the queue empty with no timer
    set. *)
Theorem batch_fires_from_delay evs st0 st r d :
  loaded st0 →
  run evs st0 = Some st →
  (d < 1500 → ∀ h, run [Tick d; Fire h] (enqueue r st) = None)
  ∧ (1500 ≤ d →
     ∃ st1 st2,
       host_step (Tick d) (enqueue r st) = Some st1
       ∧ host_step (Fire (next_timer st)) st1 = Some st2
       ∧ captures (Fire (next_timer st)) st1 = validationRequests st ++ [r]
       ∧ validationRequests st2 = []
       ∧ timeout st2 = None
       ∧ timers st2 = ∅).
Proof.
  intros Hload Hrun.
  destruct (run_timers evs st0 st None Hrun (loaded_timers st0 Hload)) as [Hone _].
  pose proof (enqueue_restarts r st Hone) as Hts.
  pose proof (enqueue_now r st) as Hnow.
  split.
  - intros Hd h. cbn [run host_step with_now timers now].
    rewrite Hts, Hnow.
    destruct (decide (h = next_timer st)) as [->|Hne].
    + rewrite lookup_singleton_eq. by rewrite decide_False by lia.
    + by rewrite lookup_singleton_ne.
  - intros Hd.
    set (st1 := with_now (now (enqueue r st) + d) (enqueue r st)).
    destruct (fire_drains (next_timer st) st1 (now st + 1500))
      as (st2 & Hfire & Hq & Ht & Hts2).
    { change (timers st1) with (timers (enqueue r st)).
      by rewrite Hts, lookup_singleton_eq. }
    { change (now st1) with (now (enqueue r st) + d). rewrite Hnow. lia. }
    exists st1, st2. split; [done|]. split; [done|].
    split; [apply enqueue_queue|]. split; [done|]. split; [done|].
    rewrite Hts2. change (timers st1) with (timers (enqueue r st)).
    rewrite Hts. apply delete_singleton_eq.
Qed.

Lemma batch_fires_from_delay_witness :
  let st0 := sample sample_url None [] in
  ∃ st,
    run [Call 1 3 VUndefined; Tick 1000] st0 = Some st
    ∧ (∀ h, run [Tick 1499; Fire h] (enqueue (req 2 4) st) = None)
    ∧ ∃ st1 st2,
        host_step (Tick 1500) (enqueue (req 2 4) st) = Some st1
        ∧ host_step (Fire (next_timer st)) st1 = Some st2
        ∧ captures (Fire (next_timer st)) st1 = validationRequests st ++ [req 2 4]
        ∧ validationRequests st2 = []
        ∧ timeout st2 = None
        ∧ timers st2 = ∅.
Proof.
  intros st0. eexists. split; [reflexivity|].
  split.
  - refine (proj1 (batch_fires_from_delay [Call 1 3 VUndefined; Tick 1000]
                     st0 _ (req 2 4) 1499 _ _) _).
    + repeat split.
    + reflexivity.
    + lia.
  - refine (proj2 (batch_fires_from_delay [Call 1 3 VUndefined; Tick 1000]
                     st0 _ (req 2 4) 1500 _ _) _).
    + repeat split.
    + reflexivity.
    + lia.
Defined.

(** ** The first loop: order and conservation *)

Section merging.
Variable h : heap.
Implicit Types (r : request) (rs : list request) (k : string)
  (acc : list (string * batch)).

(** The keys of [byProduct] are the ids in order of first appearance. *)
Lemma forEach_keys rs acc acc' :
  forEach rs (merge_request h) acc = Returned acc' →
  acc'.*1
  = foldl (λ seen k, if decide (k ∈ seen) then seen else seen ++ [k])
      acc.*1 (idof h <$> rs).
Proof.
  revert acc. induction rs as [|r rs IH]; intros acc; simpl.
  - by intros [= <-].
  - unfold merge_request at 1, read. fold (idof h r).
    destruct (assoc (idof h r) acc) as [b0|] eqn:E.
    + intros Hrest. rewrite (IH _ Hrest), update_keys.
      rewrite decide_True; [done|]. by apply assoc_Some_key in E.
    + destruct (inherited (idof h r)); [done|].
      intros Hrest. rewrite (IH _ Hrest), fmap_app.
      rewrite decide_False; [done|]. by apply assoc_None.
Qed.

Lemma held_update k cb p acc b0 :
  assoc k acc = Some b0 →
  held (update k (λ b, {| bproduct := p; callbacks := callbacks b ++ [cb] |}) acc)
  ≡ₚ held acc ++ [cb].
Proof.
  unfold held. induction acc as [|[k' b] acc IH]; [done|]. simpl.
  destruct (decide (k = k')) as [->|Hne]; csimpl.
  - intros _. rewrite <-!app_assoc. f_equiv. apply Permutation_app_comm.
  - intros E. rewrite (IH E). by rewrite app_assoc.
Qed.

(** The loop moves every callback into one entry, and only there. *)
Lemma forEach_held rs acc acc' :
  forEach rs (merge_request h) acc = Returned acc' →
  held acc' ≡ₚ held acc ++ (callback <$> rs).
Proof.
  revert acc. induction rs as [|r rs IH]; intros acc; simpl.
  - intros [= <-]. by rewrite app_nil_r.
  - unfold merge_request at 1, read. fold (idof h r).
    destruct (assoc (idof h r) acc) as [b0|] eqn:E.
    + intros Hrest. rewrite (IH _ Hrest), (held_update _ _ _ _ _ E).
      by rewrite <-app_assoc.
    + destruct (inherited (idof h r)); [done|].
      intros Hrest. rewrite (IH _ Hrest). unfold held.
      rewrite !fmap_app, concat_app. csimpl. by rewrite <-app_assoc.
Qed.

Lemma omap_assoc_keys acc : NoDup acc.*1 → omap (λ k, assoc k acc) acc.*1 = acc.*2.
Proof.
  induction acc as [|[k0 b0] acc IH]; [done|]. csimpl.
  intros [Hk0 Hnd]%NoDup_cons. rewrite decide_True by done. csimpl.
  f_equal. rewrite <-(IH Hnd).
  apply list_omap_ext. apply Forall2_same_length_lookup. split; [done|].
  intros i k k' Hk Hk'. assert (k' = k) as -> by congruence.
  rewrite decide_False; [done|].
  intros ->. apply Hk0. by apply list_elem_of_lookup_2 in Hk.
Qed.

Lemma batches_Permutation acc : NoDup acc.*1 → batches acc ≡ₚ acc.*2.
Proof.
  intros Hnd. unfold batches.
  rewrite Object_keys_Permutation. by rewrite omap_assoc_keys.
Qed.

(** Keys that are no array indices keep the order of their creation. *)
Lemma Object_keys_names acc :
  Forall (λ k, array_index k = None) acc.*1 → Object_keys acc = acc.*1.
Proof.
  unfold Object_keys. generalize (acc.*1). intros ks Hks.
  assert (E : omap (λ k, (λ n, (n, k)) <$> array_index k) ks = []).
  { induction Hks as [|k ks Hk _ IH]; [done|]. csimpl. by rewrite Hk. }
  rewrite E. csimpl. clear E.
  induction Hks as [|k ks Hk _ IH]; [done|].
  rewrite filter_cons_True by done. by rewrite IH.
Qed.
End merging.

Section calls_of_a_firing.
Implicit Types (st : state).

(** The calls of a firing, next to the object the first loop built. *)
Lemma runValidation_merged st :
  let h := store_heap st in
  let rs := validationRequests st in
  Forall (λ r, inherited (idof h r) = false) rs →
  ∃ byProduct,
    forEach rs (merge_request h) [] = Returned byProduct
    ∧ grouped h rs byProduct
    ∧ runValidation st
      = Returned (foldl (λ s b, post b s) (captured_state st) (batches byProduct))
    ∧ (λ c, payload_id (body c))
        <$> calls_of (batches byProduct) (captured_state st)
      = Object_keys byProduct.
Proof.
  intros h rs Hok.
  destruct (forEach_grouped h rs [] [] (grouped_nil h) Hok) as (byProduct & E & Hg).
  exists byProduct. split; [done|]. split; [done|]. split.
  - unfold runValidation, dispatchAll. cbn zeta.
    change (validationRequests (with_timeout None st)) with rs.
    change (store_heap (with_queue [] (with_timeout None st))) with h.
    rewrite E. apply dispatch_total.
    intros k Hk. rewrite Object_keys_Permutation in Hk.
    destruct (assoc k byProduct) eqn:Hb; [done|].
    by apply assoc_None in Hb.
  - destruct (batches_keys h rs byProduct Hg) as [Hids _].
    rewrite <-Hids.
    rewrite <-(calls_of_waiting (batches byProduct) (captured_state st)) at 2.
    rewrite <-list_fmap_compose. apply Forall_fmap_ext_1.
    eapply Forall_impl; [apply calls_of_products|]. by intros c [_ ->].
Qed.

Lemma calls_of_url bs st :
  Forall (λ c, url c = validator st ∧ method c = "POST") (calls_of bs st).
Proof.
  revert st. induction bs as [|b bs IH]; intros st; simpl; [done|].
  constructor; [done|]. apply (IH (post b st)).
Qed.

(** What posting a batch leaves of each product. *)
Lemma post_frame b st p :
  let x := product_at (store_heap st) p in
  let x' := product_at (store_heap (post b st)) p in
  id x' = id x
  ∧ fields x' = fields x
  ∧ (∀ a, additionalData x = Some a → additionalData x' = Some a)
  ∧ (p ≠ bproduct b →
     products (store_heap (post b st)) !! p = products (store_heap st) !! p).
Proof.
  intros x x'. subst x x'.
  destruct (post_spec b st) as (_ & ab & Hcase & Hx & _ & Hp & _).
  destruct (decide (p = bproduct b)) as [->|Hne].
  - rewrite Hx. cbn [id fields additionalData]. split; [done|]. split; [done|].
    split; [|done]. intros a Ha. rewrite Ha in Hcase. by destruct Hcase as [-> _].
  - unfold product_at. rewrite (Hp p Hne). done.
Qed.

Lemma posts_frame bs st p :
  let x := product_at (store_heap st) p in
  let x' := product_at (store_heap (foldl (λ s b, post b s) st bs)) p in
  id x' = id x
  ∧ fields x' = fields x
  ∧ (∀ a, additionalData x = Some a → additionalData x' = Some a)
  ∧ (p ∉ bproduct <$> bs →
     products (store_heap (foldl (λ s b, post b s) st bs)) !! p
     = products (store_heap st) !! p).
Proof.
  revert st. induction bs as [|b bs IH]; intros st; [done|].
  cbn [foldl]. cbn zeta.
  destruct (IH (post b st)) as (Hid & Hf & Ha & Hp).
  destruct (post_frame b st p) as (Hid' & Hf' & Ha' & Hp').
  split; [congruence|]. split; [congruence|]. split.
  - intros a Hx. by apply Ha, Ha'.
  - intros Hnot. rewrite fmap_cons, not_elem_of_cons in Hnot.
    destruct Hnot as [Hne Hnot]. rewrite Hp by done. by apply Hp'.
Qed.
End calls_of_a_firing.

(** ** What a firing sends *)

Section sending.
Implicit Types (st : state).

Lemma concat_Permutation {A} (l1 l2 : list (list A)) :
  l1 ≡ₚ l2 → concat l1 ≡ₚ concat l2.
Proof.
  induction 1 as [|x l1 l2 _ IH|x y l|l1 l2 l3 _ IH1 _ IH2]; simpl.
  - done.
  - by rewrite IH.
  - rewrite !app_assoc. f_equiv. apply Permutation_app_comm.
  - by rewrite IH1.
Qed.

Lemma invoked_callbacks (ok result : value) (cbs : list nat) :
  invoked ((λ cb, Callback cb ok result) <$> cbs) = cbs
  ∧ calls ((λ cb, Callback cb ok result) <$> cbs) = []
  ∧ delegated ((λ cb, Callback cb ok result) <$> cbs) = [].
Proof.
  unfold invoked, calls, delegated.
  induction cbs as [|cb cbs (IH1 & IH2 & IH3)]; [done|]. csimpl.
  by rewrite IH1, IH2, IH3.
Qed.

Lemma success_null call st : state_of (success call JNull st) = st.
Proof. unfold success. by destruct (callbacks (waiting call)). Qed.
End sending.

(** X6. When no captured request carries an inherited name for product
    id, the firing posts one call for each distinct id, to the validator
    set at that moment: the call holds the product of the last request
    with that id and the callbacks of all the requests with that id, in
    the order they were queued. *)
Theorem one_call_for_each_product st :
  let h := store_heap st in
  let rs := validationRequests st in
  Forall (λ r, inherited (idof h r) = false) rs →
  ∃ st' cs,
    runValidation st = Returned st'
    ∧ trace st' = trace st ++ (Ajax <$> cs)
    ∧ length cs = length (remove_dups (idof h <$> rs))
    ∧ NoDup ((λ c, payload_id (body c)) <$> cs)
    ∧ (∀ k, k ∈ (λ c, payload_id (body c)) <$> cs ↔ k ∈ idof h <$> rs)
    ∧ Forall (λ c,
        url c = validator st
        ∧ method c = "POST"
        ∧ callbacks (waiting c) = callback <$> carrying h (payload_id (body c)) rs
        ∧ last (product <$> carrying h (payload_id (body c)) rs) = Some (data c))
        cs.
Proof.
  intros h rs Hok.
  destruct (one_call_per_product st Hok)
    as (cs & E & Hcs & Htrace & Hlen & Hnd & Hkeys & Hbatch).
  eexists _, cs. split; [exact E|]. rewrite E in Htrace.
  split; [exact Htrace|]. split; [exact Hlen|]. split; [exact Hnd|].
  split; [exact Hkeys|].
  pose proof (calls_of_url (waiting <$> cs) (captured_state st)) as Hurl.
  rewrite <-Hcs in Hurl.
  rewrite Forall_forall in Hurl, Hbatch. apply Forall_forall. intros c Hc.
  destruct (Hurl c Hc) as [? ?]. destruct (Hbatch c Hc) as [? ?]. done.
Qed.

Lemma one_call_for_each_product_witness :
  let st := sample sample_url None [req 1 1; req 3 2; req 2 3] in
  let h := store_heap st in
  let rs := validationRequests st in
  ∃ st' cs,
    runValidation st = Returned st'
    ∧ trace st' = trace st ++ (Ajax <$> cs)
    ∧ length cs = 2
    ∧ NoDup ((λ c, payload_id (body c)) <$> cs)
    ∧ (∀ k, k ∈ (λ c, payload_id (body c)) <$> cs ↔ k ∈ idof h <$> rs)
    ∧ Forall (λ c,
        url c = validator st
        ∧ method c = "POST"
        ∧ callbacks (waiting c) = callback <$> carrying h (payload_id (body c)) rs
        ∧ last (product <$> carrying h (payload_id (body c)) rs) = Some (data c))
        cs.
Proof.
  intros st h rs.
  apply (one_call_for_each_product st). repeat constructor.
Defined.



(** X8. When no captured request carries an inherited name, the callbacks
    the calls of the firing wait for are, all together, the callbacks of
    the captured requests, each as many times as it was queued: none is
    dropped and none is held by two calls. *)
Theorem callbacks_conserved st :
  let h := store_heap st in
  let rs := validationRequests st in
  Forall (λ r, inherited (idof h r) = false) rs →
  ∃ cs,
    trace (state_of (runValidation st)) = trace st ++ (Ajax <$> cs)
    ∧ concat ((λ c, callbacks (waiting c)) <$> cs) ≡ₚ callback <$> rs.
Proof.
  intros h rs Hok.
  destruct (runValidation_merged st Hok) as (byProduct & E & Hg & Hrun & _).
  exists (calls_of (batches byProduct) (captured_state st)). split.
  - rewrite Hrun. cbn [state_of]. by rewrite posts_trace.
  - rewrite (list_fmap_compose waiting callbacks), calls_of_waiting.
    rewrite (concat_Permutation _ (callbacks <$> byProduct.*2)).
    + by rewrite (forEach_held h rs [] byProduct E).
    + apply fmap_Permutation, batches_Permutation, Hg.
Qed.

Lemma callbacks_conserved_witness :
  let st := sample sample_url None [req 1 1; req 3 2; req 2 3; req 1 1] in
  ∃ cs,
    trace (state_of (runValidation st)) = trace st ++ (Ajax <$> cs)
    ∧ concat ((λ c, callbacks (waiting c)) <$> cs) ≡ₚ [1; 2; 3; 1].
Proof.
  intros st. apply (callbacks_conserved st). repeat constructor.
Defined.

(** X9. When the product ids are neither inherited names nor array
    indices, the calls of a firing are made in the order in which their
    ids first appear in the queue. *)
Theorem calls_follow_first_requests st :
  let h := store_heap st in
  let rs := validationRequests st in
  Forall (λ r, inherited (idof h r) = false) rs →
  Forall (λ r, array_index (idof h r) = None) rs →
  ∃ cs,
    trace (state_of (runValidation st)) = trace st ++ (Ajax <$> cs)
    ∧ (λ c, payload_id (body c)) <$> cs = first_seen (idof h <$> rs).
Proof.
  intros h rs Hok Hnames.
  destruct (runValidation_merged st Hok) as (byProduct & E & Hg & Hrun & Hids).
  exists (calls_of (batches byProduct) (captured_state st)). split.
  - rewrite Hrun. cbn [state_of]. by rewrite posts_trace.
  - rewrite Hids, Object_keys_names.
    + by rewrite (forEach_keys h rs [] byProduct E).
    + apply Forall_forall. intros k Hk.
      apply (grouped_keys h rs byProduct Hg) in Hk.
      apply list_elem_of_fmap in Hk as (r & -> & Hr).
      rewrite Forall_forall in Hnames. by apply Hnames.
Qed.

Lemma calls_follow_first_requests_witness :
  let st := sample sample_url None [req 3 1; req 1 2; req 3 3; req 2 4] in
  ∃ cs,
    trace (state_of (runValidation st)) = trace st ++ (Ajax <$> cs)
    ∧ (λ c, payload_id (body c)) <$> cs = ["b"; "a"].
Proof.
  intros st. apply (calls_follow_first_requests st); repeat constructor.
Defined.

(** X10. A success response whose body is not [null] reaches every
    callback of the batch, in order, with the same two arguments.  The
    first is truthy only when the body is an object with a truthy [ok],
    and the second is defined only when the body is an object with a
    [data] property. *)
Theorem success_reports_the_body call response st :
  response ≠ JNull →
  success call response st
  = Returned (emit ((λ cb, Callback cb (ok_of response) (data_of response))
                      <$> callbacks (waiting call)) st)
  ∧ (truthy (ok_of response) = true →
     ∃ props j, response = JObject props ∧ assoc "ok" props = Some j
                ∧ json_truthy j = true)
  ∧ (data_of response ≠ VUndefined →
     ∃ props j, response = JObject props ∧ assoc "data" props = Some j).
Proof.
  intros Hnull. split; [by apply success_not_null|]. split.
  - unfold ok_of. destruct (json_truthy response) eqn:Ht.
    + destruct response as [|b|n|s|items|props]; try done.
      destruct (assoc "ok" props) as [j|] eqn:E; [|done]. eauto.
    + simpl. by rewrite Ht.
  - unfold data_of. destruct response as [|b|n|s|items|props]; try done.
    destruct (assoc "data" props) as [j|] eqn:E; [|done]. eauto.
Qed.

Lemma success_reports_the_body_witness :
  let response := JObject [("data", JObject [("code", JNumber 6778003)])] in
  success sample_call response (sample sample_url None [])
  = Returned (emit [Callback 3 VUndefined (VData (JObject [("code", JNumber 6778003)]));
                    Callback 5 VUndefined (VData (JObject [("code", JNumber 6778003)]))]
                (sample sample_url None [])).
Proof.
  intros response.
  refine (proj1 (success_reports_the_body sample_call response
                   (sample sample_url None []) _)).
  discriminate.
Defined.

(** X11. A firing changes no product's [id] and none of its other
    fields, keeps the [additionalData] object of a product that has one,
    and leaves alone every product that no captured request refers to. *)
Theorem firing_keeps_products st p :
  let h := store_heap st in
  let h' := store_heap (state_of (runValidation st)) in
  id (product_at h' p) = id (product_at h p)
  ∧ fields (product_at h' p) = fields (product_at h p)
  ∧ (∀ a, additionalData (product_at h p) = Some a →
          additionalData (product_at h' p) = Some a)
  ∧ (p ∉ product <$> validationRequests st → products h' !! p = products h !! p).
Proof.
  intros h h'. subst h h'.
  destruct (runValidation_posts st) as (bs & E & Hbs). rewrite E.
  destruct (posts_frame bs (captured_state st) p) as (Hid & Hf & Ha & Hp).
  split; [exact Hid|]. split; [exact Hf|]. split; [exact Ha|].
  intros Hnot. apply Hp. intros Hin. apply Hnot.
  apply list_elem_of_fmap in Hin as (b & -> & Hb).
  rewrite Forall_forall in Hbs. by apply Hbs.
Qed.

Lemma firing_keeps_products_witness :
  let st := sample sample_url None [req 1 1; req 2 2] in
  let h' := store_heap (state_of (runValidation st)) in
  additionalData (product_at h' 3%positive) = Some 1%positive
  ∧ products h' !! 3%positive = products (store_heap st) !! 3%positive.
Proof.
  intros st h'.
  destruct (firing_keeps_products st 3%positive) as (_ & _ & Ha & Hp).
  split.
  - apply (Ha 1%positive). reflexivity.
  - apply Hp. vm_compute. intros Hin.
    apply elem_of_cons in Hin as [Hin|Hin]; [discriminate|].
    apply elem_of_cons in Hin as [Hin|Hin]; [discriminate|].
    by apply elem_of_nil in Hin.
Defined.

(** X12. The endpoint is read when the batch is dispatched: when
    [store.validator] is set anew and the timer then fires, every call of
    that firing is a POST to the new value, whatever the validator was
    when the requests were queued. *)
Theorem calls_use_validator_of_firing st v h st' :
  run [Configure v; Fire h] st = Some st' →
  ∃ cs,
    trace st' = trace st ++ (Ajax <$> cs)
    ∧ Forall (λ c, url c = v ∧ method c = "POST") cs.
Proof.
  cbn [run host_step with_validator timers now next_timer].
  destruct (timers st !! h) as [due|]; [|done].
  case_decide; [|done]. intros [= <-].
  match goal with
  | |- context [runValidation ?s] =>
      destruct (runValidation_posts s) as (bs & E & _);
      exists (calls_of bs (captured_state s)); split;
      [by rewrite E, posts_trace | apply (calls_of_url bs (captured_state s))]
  end.
Qed.

Lemma calls_use_validator_of_firing_witness :
  let st0 := sample sample_url None [] in
  ∃ st st',
    run [Call 1 3 VUndefined; Tick 1500] st0 = Some st
    ∧ run [Configure (VStr "https://other.example"); Fire 1] st = Some st'
    ∧ ∃ cs,
        trace st' = trace st ++ (Ajax <$> cs)
        ∧ Forall (λ c, url c = VStr "https://other.example" ∧ method c = "POST") cs.
Proof.
  intros st0. eexists _, _. split; [reflexivity|].
  refine ((λ H, conj H (calls_use_validator_of_firing _ _ _ _ H)) _).
  vm_compute. reflexivity.
Defined.

(** X13. [runValidation] throws only in its first loop, and only for a
    request whose product id is an inherited name; by then it has sent
    nothing and changed no product, and the captured requests are gone
    from the queue. *)
Theorem runValidation_throws_only_when_merging st e st' :
  runValidation st = Threw e st' →
  Exists (λ r, inherited (idof (store_heap st) r) = true) (validationRequests st)
  ∧ st' = captured_state st
  ∧ trace st' = trace st
  ∧ store_heap st' = store_heap st
  ∧ validationRequests st' = [].
Proof.
  intros Hthrow.
  destruct (inherited_dec (store_heap st) (validationRequests st)) as [Hok|Hbad].
  - destruct (runValidation_returns st Hok) as (byProduct & _ & E). congruence.
  - split; [done|]. destruct (runValidation_throws st Hbad) as [e' E].
    rewrite E in Hthrow. by injection Hthrow as _ <-.
Qed.

Lemma runValidation_throws_only_when_merging_witness :
  let st := sample sample_url None [req 1 1; req 4 2] in
  ∃ e st',
    runValidation st = Threw e st'
    ∧ Exists (λ r, inherited (idof (store_heap st) r) = true) (validationRequests st)
    ∧ st' = captured_state st
    ∧ trace st' = trace st
    ∧ store_heap st' = store_heap st
    ∧ validationRequests st' = [].
Proof.
  intros st. eexists _, _.
  refine ((λ H, conj H (runValidation_throws_only_when_merging st _ _ H)) _).
  vm_compute. reflexivity.
Defined.

(** X14. A response does nothing but call back: whether it succeeds or
    fails, nothing is queued again, no timer is set, no call goes out and
    no product changes.  A failure calls each callback of the batch once,
    in order, and so does a success whose body is not [null]. *)
Theorem responses_only_call_back call response status message st :
  let s1 := state_of (success call response st) in
  let s2 := state_of (error call status message st) in
  (sched s1 = sched st ∧ store_heap s1 = store_heap st
   ∧ calls (trace s1) = calls (trace st)
   ∧ delegated (trace s1) = delegated (trace st))
  ∧ (sched s2 = sched st ∧ store_heap s2 = store_heap st
     ∧ calls (trace s2) = calls (trace st)
     ∧ delegated (trace s2) = delegated (trace st))
  ∧ invoked (trace s2) = invoked (trace st) ++ callbacks (waiting call)
  ∧ (response ≠ JNull →
     invoked (trace s1) = invoked (trace st) ++ callbacks (waiting call)).
Proof.
  intros s1 s2.
  assert (Hemit : ∀ ok result,
    let s := emit ((λ cb, Callback cb ok result) <$> callbacks (waiting call)) st in
    (sched s = sched st ∧ store_heap s = store_heap st
     ∧ calls (trace s) = calls (trace st)
     ∧ delegated (trace s) = delegated (trace st))
    ∧ invoked (trace s) = invoked (trace st) ++ callbacks (waiting call)).
  { intros ok result s. subst s. cbn [emit trace].
    rewrite calls_app, delegated_app, invoked_app.
    destruct (invoked_callbacks ok result (callbacks (waiting call)))
      as (-> & -> & ->).
    by rewrite !app_nil_r. }
  assert (Hs2 : s2 = emit ((λ cb, Callback cb VFalse
                              (VStr ("Error " +:+ pretty status +:+ ": " +:+ message)))
                             <$> callbacks (waiting call)) st).
  { subst s2. by rewrite error_fans_out. }
  destruct (Hemit VFalse (VStr ("Error " +:+ pretty status +:+ ": " +:+ message)))
    as [Hframe2 Hinv2].
  rewrite <-Hs2 in Hframe2, Hinv2.
  assert (Hcases : response = JNull ∨ response ≠ JNull).
  { destruct response; [by left | by right ..]. }
  destruct Hcases as [->|Hnull].
  - subst s1. rewrite success_null. done.
  - destruct (Hemit (ok_of response) (data_of response)) as [Hframe1 Hinv1].
    subst s1. rewrite success_not_null by done. done.
Qed.

Lemma responses_only_call_back_witness :
  let st := sample sample_url None [req 1 1] in
  let s1 := state_of (success sample_call (JObject [("ok", JBool true)]) st) in
  invoked (trace s1) = [3; 5]
  ∧ validationRequests s1 = [req 1 1]
  ∧ calls (trace s1) = [].
Proof.
  intros st s1.
  destruct (responses_only_call_back sample_call (JObject [("ok", JBool true)])
              500 "Internal Error" st)
    as ((Hsched & _ & Hcalls & _) & _ & _ & Hinv).
  split; [|split].
  - apply Hinv. discriminate.
  - exact (f_equal (λ x, x.1.1.1.1) Hsched).
  - exact Hcalls.
Defined.
